(** * structarg: declarative command-line argument binding

    A shallow embedding of the Go packages [structarg] (schema derivation,
    argument model, parser, validation) and [gotypes] (typed coercion of
    text into reflected slots), with the properties of the specification
    stated and proved over it.

    Conventions of the embedding.
    - A Go [string] is a [string] of bytes; the identifiers and tokens the
      theorems speak about are ASCII, and [ToUpper] is the ASCII case map.
    - A [reflect.Value] is a [Value]: the dynamic type together with the
      stored datum.  Slots are addressable exported fields ([CanSet] holds).
    - Fixed-width integers are [Z] with the wrap-around of Go conversions
      written out ([wrapU], [wrapS]); [int] and [uint] are 64 bits wide.
    - A Go [error] is a term of [error], one constructor per message format;
      [None] is [nil].
    - In-place mutation through pointers is explicit state passing: a method
      returns the updated receiver next to its result.
    - [strconv.ParseFloat], the [float32] conversion and [os.Getenv] are
      outside the repository; they are the fields of [External]. *)

From Stdlib Require Import ZArith Lia String Ascii Bool DecimalString.
From stdpp Require Import list gmap strings.

Set Warnings "-register-all".

Local Open Scope string_scope.
Local Open Scope Z_scope.

(** ** Package [strings] (the functions the repository calls) *)

Module strings.

Definition byte_of (c : ascii) : Z := Z.of_N (N_of_ascii c).
Definition of_byte (z : Z) : ascii := ascii_of_N (Z.to_N (z mod 256)).

Definition isLowerChar (c : ascii) : bool :=
  (97 <=? byte_of c) && (byte_of c <=? 122).

Definition upperChar (c : ascii) : ascii :=
  if isLowerChar c then of_byte (byte_of c - 32) else c.

Fixpoint ToUpper (s : string) : string :=
  match s with
  | EmptyString => EmptyString
  | String c s' => String (upperChar c) (ToUpper s')
  end.

Fixpoint HasPrefix (s prefix : string) : bool :=
  match prefix, s with
  | EmptyString, _ => true
  | String _ _, EmptyString => false
  | String p prefix', String c s' => Ascii.eqb c p && HasPrefix s' prefix'
  end.

Fixpoint inCutset (c : ascii) (cutset : string) : bool :=
  match cutset with
  | EmptyString => false
  | String d cutset' => Ascii.eqb c d || inCutset c cutset'
  end.

Fixpoint TrimLeft (s cutset : string) : string :=
  match s with
  | EmptyString => EmptyString
  | String c s' => if inCutset c cutset then TrimLeft s' cutset else s
  end.

Fixpoint TrimRight (s cutset : string) : string :=
  match s with
  | EmptyString => EmptyString
  | String c s' =>
      match TrimRight s' cutset with
      | EmptyString => if inCutset c cutset then EmptyString
                       else String c EmptyString
      | t => String c t
      end
  end.

Definition Trim (s cutset : string) : string :=
  TrimRight (TrimLeft s cutset) cutset.

(** One trailing byte [c] removed, if there. *)
Fixpoint TrimRight_once (s : string) (c : ascii) : string :=
  match s with
  | EmptyString => EmptyString
  | String d EmptyString => if Ascii.eqb d c then EmptyString else s
  | String d s' => String d (TrimRight_once s' c)
  end.

(** [IndexByte s c]: index of the first [c] in [s], or [-1]. *)
Fixpoint IndexByte (s : string) (c : ascii) : Z :=
  match s with
  | EmptyString => -1
  | String d s' =>
      if Ascii.eqb d c then 0
      else let i := IndexByte s' c in if i <? 0 then -1 else i + 1
  end.

(** [Replace s old new (-1)] for one-byte [old] and [new], the only use. *)
Fixpoint ReplaceByte (s : string) (old new : ascii) : string :=
  match s with
  | EmptyString => EmptyString
  | String c s' =>
      String (if Ascii.eqb c old then new else c) (ReplaceByte s' old new)
  end.

(** [Split s sep] for a one-byte separator: always at least one piece. *)
Fixpoint Split (s : string) (sep : ascii) : list string :=
  match s with
  | EmptyString => [EmptyString]
  | String c s' =>
      if Ascii.eqb c sep then EmptyString :: Split s' sep
      else match Split s' sep with
           | [] => [String c EmptyString]
           | p :: ps => String c p :: ps
           end
  end.

Fixpoint Join (l : list string) (sep : string) : string :=
  match l with
  | [] => EmptyString
  | [s] => s
  | s :: l' => s ++ sep ++ Join l' sep
  end.

(** Go slicing [s[lo:hi]] and [s[lo:]] for indices within bounds. *)
Definition slice (s : string) (lo hi : Z) : string :=
  substring (Z.to_nat lo) (Z.to_nat (hi - lo)) s.
Definition slice_from (s : string) (lo : Z) : string :=
  substring (Z.to_nat lo) (String.length s - Z.to_nat lo)%nat s.

Definition len (s : string) : Z := Z.of_nat (String.length s).

End strings.

(** ** Package [strconv] (integer and boolean parsing, base 10) *)

Module strconv.

Inductive NumErr := ErrSyntax | ErrRange.

Definition isDigit (c : ascii) : bool :=
  (48 <=? strings.byte_of c) && (strings.byte_of c <=? 57).

Definition digit (c : ascii) : Z := strings.byte_of c - 48.

Definition maxUint64 : Z := 2 ^ 64 - 1.

(** The digit loop of [ParseUint] for base 10: [n] is the accumulator,
    arithmetic is that of [uint64]. *)
Fixpoint ParseUint_loop (s : string) (maxVal n : Z) : Z * option NumErr :=
  match s with
  | EmptyString => (n, None)
  | String c s' =>
      if negb (isDigit c) then (0, Some ErrSyntax)
      else
        let d := digit c in
        let cutoff := maxUint64 / 10 + 1 in
        if cutoff <=? n then (maxVal, Some ErrRange)
        else
          let n10 := (n * 10) mod 2 ^ 64 in
          let n1 := (n10 + d) mod 2 ^ 64 in
          if (n1 <? n10) || (maxVal <? n1) then (maxVal, Some ErrRange)
          else ParseUint_loop s' maxVal n1
  end.

(** [ParseUint s 10 bitSize], [1 <= bitSize <= 64]. *)
Definition ParseUint (s : string) (bitSize : Z) : Z * option NumErr :=
  match s with
  | EmptyString => (0, Some ErrSyntax)
  | _ => ParseUint_loop s (2 ^ bitSize - 1) 0
  end.

(** [ParseInt s 10 bitSize]: an optional sign, then [ParseUint]. *)
Definition ParseInt (s : string) (bitSize : Z) : Z * option NumErr :=
  match s with
  | EmptyString => (0, Some ErrSyntax)
  | String c s' =>
      let neg := Ascii.eqb c "-" in
      let body := if Ascii.eqb c "+" || neg then s' else s in
      match ParseUint body bitSize with
      | (_, Some ErrSyntax) => (0, Some ErrSyntax)
      | (un, _) =>
          let cutoff := 2 ^ (bitSize - 1) in
          if negb neg && (cutoff <=? un) then (cutoff - 1, Some ErrRange)
          else if neg && (cutoff <? un) then (- cutoff, Some ErrRange)
          else (if neg then - un else un, None)
      end
  end.

Definition ParseBool (s : string) : bool * option NumErr :=
  if existsb (String.eqb s) ["1"; "t"; "T"; "TRUE"; "true"; "True"]
  then (true, None)
  else if existsb (String.eqb s) ["0"; "f"; "F"; "FALSE"; "false"; "False"]
  then (false, None)
  else (false, Some ErrSyntax).

End strconv.

(** ** Package [reflect]: types and values as the program inspects them *)

Module reflect.

Inductive IntKind := Int | Int8 | Int16 | Int32 | Int64.
Inductive UintKind := Uint | Uint8 | Uint16 | Uint32 | Uint64.
Inductive FloatKind := Float32 | Float64.

(** A struct tag is its list of [key:"value"] pairs. *)
Definition StructTag := list (string * string).

(** Types.  [TOther] stands for every type the program only ever sends to a
    [default] branch (pointers, maps, functions, ...). *)
Inductive Type_ :=
| TBool
| TInt (k : IntKind)
| TUint (k : UintKind)
| TFloat (k : FloatKind)
| TString
| TSlice (elem : Type_)
| TArray (n : nat) (elem : Type_)
| TStruct (fields : list StructField)
| TOther (name : string)
with StructField :=
| Field (Name : string) (Tag : StructTag) (Type' : Type_).

Definition Name (f : StructField) : string := let 'Field n _ _ := f in n.
Definition Tag (f : StructField) : StructTag := let 'Field _ t _ := f in t.
Definition FieldType (f : StructField) : Type_ := let 'Field _ _ t := f in t.

(** [f.Tag.Get(key)]: the value of the first pair with that key, else [""]. *)
Fixpoint Get (tag : StructTag) (key : string) : string :=
  match tag with
  | [] => EmptyString
  | (k, v) :: tag' => if String.eqb k key then v else Get tag' key
  end.

Inductive Kind :=
| KBool | KInt | KUint | KFloat | KString | KSlice | KArray | KStruct | KOther.

Definition KindOf (t : Type_) : Kind :=
  match t with
  | TBool => KBool | TInt _ => KInt | TUint _ => KUint | TFloat _ => KFloat
  | TString => KString | TSlice _ => KSlice | TArray _ _ => KArray
  | TStruct _ => KStruct | TOther _ => KOther
  end.

(** Values carry their dynamic type.  A float is its IEEE bit pattern. *)
Inductive Value :=
| VBool (b : bool)
| VInt (k : IntKind) (n : Z)
| VUint (k : UintKind) (n : Z)
| VFloat (k : FloatKind) (bits : Z)
| VString (s : string)
| VSlice (elem : Type_) (l : list Value)
| VArray (elem : Type_) (l : list Value)
| VStruct (fields : list StructField) (l : list Value)
| VOther (name : string).

Definition TypeOf (v : Value) : Type_ :=
  match v with
  | VBool _ => TBool | VInt k _ => TInt k | VUint k _ => TUint k
  | VFloat k _ => TFloat k | VString _ => TString
  | VSlice e _ => TSlice e | VArray e l => TArray (length l) e
  | VStruct fs _ => TStruct fs | VOther n => TOther n
  end.

Definition intBits (k : IntKind) : Z :=
  match k with Int => 64 | Int8 => 8 | Int16 => 16 | Int32 => 32 | Int64 => 64 end.
Definition uintBits (k : UintKind) : Z :=
  match k with Uint => 64 | Uint8 => 8 | Uint16 => 16 | Uint32 => 32 | Uint64 => 64 end.

(** Go's integer conversions keep the low [w] bits. *)
Definition wrapU (w x : Z) : Z := x mod 2 ^ w.
Definition wrapS (w x : Z) : Z := (x + 2 ^ (w - 1)) mod 2 ^ w - 2 ^ (w - 1).

(** [v.Len()]: defined for slices, arrays and strings, a panic for the
    other kinds represented here. *)
Definition Len (v : Value) : option Z :=
  match v with
  | VSlice _ l | VArray _ l => Some (Z.of_nat (length l))
  | VString s => Some (strings.len s)
  | _ => None
  end.

(** The text of a type, as [reflect] prints it.  The fields of a struct
    type are left out of the text; [TOther] is printed by its name. *)
Fixpoint TypeString (t : Type_) : string :=
  match t with
  | TBool => "bool"
  | TInt k =>
      match k with
      | Int => "int" | Int8 => "int8" | Int16 => "int16"
      | Int32 => "int32" | Int64 => "int64"
      end
  | TUint k =>
      match k with
      | Uint => "uint" | Uint8 => "uint8" | Uint16 => "uint16"
      | Uint32 => "uint32" | Uint64 => "uint64"
      end
  | TFloat k => match k with Float32 => "float32" | Float64 => "float64" end
  | TString => "string"
  | TSlice e => "[]" ++ TypeString e
  | TArray n e =>
      "[" ++ NilEmpty.string_of_uint (Nat.to_uint n) ++ "]" ++ TypeString e
  | TStruct _ => "struct"
  | TOther n => n
  end.

(** [v.String()]: the text of a string value; for any other value the
    description ["<T Value>"] of its type. *)
Definition String_ (v : Value) : string :=
  match v with
  | VString s => s
  | _ => "<" ++ TypeString (TypeOf v) ++ " Value>"
  end.

(** [v.Field(i)] of a struct value. *)
Definition Field_ (v : Value) (i : nat) : option Value :=
  match v with
  | VStruct _ l => l !! i
  | _ => None
  end.

End reflect.

Import reflect.

(** ** What lies outside the repository *)

Record External := {
  ParseFloat : string -> Z * option strconv.NumErr;   (* [strconv.ParseFloat s 64] *)
  toFloat32 : Z -> Z;                                 (* [float32(x)], widened back *)
  Getenv : string -> string                           (* [os.Getenv] *)
}.

(** ** Errors, one constructor per message of the two packages *)

Inductive error :=
| NumError (Func Num : string) (Err : strconv.NumErr)
| CannotParse (val : string) (tp : Type_)
| UnsupportedType (tp : Type_)
| CannotAppendNonSlice
| DefaultOnRequiredPositional
| UnknownNargs (nargs : string)
| AfterArrayPositional
| AfterSubcommand
| AfterOptionalPositional
| UnknownArgumentFor (val token metavar : string)
| NonOptionalNotSet (token : string)
| CountAtLeast (n : Z)
| CountAtMost (n : Z)
| ArgError (token : string) (e : error)
| MissingArguments (arg : string)
| UnknownOptional (arg : string)
| UnknownPositional (arg : string)
| NotEnoughArguments
| MisformatedLine (line : string).

Definition numError (fn s : string) (e : option strconv.NumErr) : option error :=
  match e with
  | Some ne => Some (NumError fn s ne)
  | None => None
  end.

(** ** Package [gotypes]: the coercion engine *)

Module gotypes.
Section WithExternal.
Variable ext : External.

Definition ParseValue (val : string) (tp : Type_) : Value * option error :=
  match tp with
  | TBool =>
      let '(val_bool, err) := strconv.ParseBool val in
      (VBool val_bool, numError "ParseBool" val err)
  | TInt k =>
      let '(val_int, err) := strconv.ParseInt val 64 in
      (VInt k (wrapS (intBits k) val_int), numError "ParseInt" val err)
  | TUint k =>
      let '(val_uint, err) := strconv.ParseUint val 64 in
      (VUint k (wrapU (uintBits k) val_uint), numError "ParseUint" val err)
  | TFloat k =>
      let '(val_float, err) := ParseFloat ext val in
      (VFloat k (match k with Float32 => toFloat32 ext val_float
                            | Float64 => val_float end),
       numError "ParseFloat" val err)
  | TString => (VString val, None)
  | _ => (VString val, Some (CannotParse val tp))
  end.

(** [SetValue value val]: the slot afterwards, and the error. *)
Definition SetValue (value : Value) (val : string) : Value * option error :=
  match value with
  | VBool _ =>
      match strconv.ParseBool val with
      | (_, Some e) => (value, Some (NumError "ParseBool" val e))
      | (val_bool, None) => (VBool val_bool, None)
      end
  | VInt k _ =>
      match strconv.ParseInt val 64 with
      | (_, Some e) => (value, Some (NumError "ParseInt" val e))
      | (val_int, None) => (VInt k (wrapS (intBits k) val_int), None)
      end
  | VUint k _ =>
      match strconv.ParseUint val 64 with
      | (_, Some e) => (value, Some (NumError "ParseUint" val e))
      | (val_uint, None) => (VUint k (wrapU (uintBits k) val_uint), None)
      end
  | VFloat k _ =>
      match ParseFloat ext val with
      | (_, Some e) => (value, Some (NumError "ParseFloat" val e))
      | (val_float, None) =>
          (VFloat k (match k with Float32 => toFloat32 ext val_float
                                | Float64 => val_float end), None)
      end
  | VString _ => (VString val, None)
  | _ => (value, Some (UnsupportedType (TypeOf value)))
  end.

(** [SliceBaseType]: the element type of the fourteen supported slice
    types, [None] ([nil]) for every other type. *)
Definition SliceBaseType (tp : Type_) : option Type_ :=
  match tp with
  | TSlice TBool => Some TBool
  | TSlice (TInt k) => Some (TInt k)
  | TSlice (TUint k) => Some (TUint k)
  | TSlice (TFloat k) => Some (TFloat k)
  | TSlice TString => Some TString
  | _ => None
  end.

Definition Append (value val_raw : Value) : Value :=
  match value with
  | VSlice e l => VSlice e (l ++ [val_raw])
  | _ => value
  end.

Definition AppendValue (value : Value) (val : string) : Value * option error :=
  match SliceBaseType (TypeOf value) with
  | None => (value, Some CannotAppendNonSlice)
  | Some tp =>
      match ParseValue val tp with
      | (_, Some e) => (value, Some e)
      | (val_raw, None) => (Append value val_raw, None)
      end
  end.

(** [AppendValues]: the values are appended one by one, up to the first
    that fails. *)
Fixpoint AppendValues (value : Value) (vals : list string)
  : Value * option error :=
  match vals with
  | [] => (value, None)
  | val :: vals' =>
      match AppendValue value val with
      | (value', None) => AppendValues value' vals'
      | r => r
      end
  end.

End WithExternal.
End gotypes.

(** ** Package [structarg]: the argument model *)

(** The outcome of a call that returns an [error]: [nil], an error, or a
    run-time panic of the Go program (nil dereference, [reflect] misuse,
    index out of range). *)
Inductive status := Nil | Err (e : error) | Panic.

Record SingleArgument := {
  token : string;
  shortToken : string;
  metavar : string;
  optional : bool;
  positional : bool;
  help : string;
  choices : list string;
  useDefault : bool;
  defValue : option Value;      (* [None]: the zero [reflect.Value] *)
  value : Value;                (* the slot of the target structure *)
  isSet : bool;
  parser_prog : string          (* [parser.prog] of the owning parser *)
}.

(** The three implementations of the [Argument] interface, over the type
    [P] of parsers: [MultiArgument] and [SubcommandArgument] embed a
    [SingleArgument].  The handler of a subcommand is not represented. *)
Inductive Argument_ (P : Type) :=
| Single (s : SingleArgument)
| Multi (s : SingleArgument) (minCount maxCount : Z)
| Subcommand (s : SingleArgument) (subcommands : gmap string P).
Arguments Single {P} s.
Arguments Multi {P} s minCount maxCount.
Arguments Subcommand {P} s subcommands.

Inductive ArgumentParser := {
  prog : string;
  description : string;
  epilog : string;
  optArgs : list (Argument_ ArgumentParser);
  posArgs : list (Argument_ ArgumentParser)
}.

Abbreviation Argument := (Argument_ ArgumentParser).

Definition with_value (s : SingleArgument) (v : Value) : SingleArgument :=
  {| token := token s; shortToken := shortToken s; metavar := metavar s;
     optional := optional s; positional := positional s; help := help s;
     choices := choices s; useDefault := useDefault s;
     defValue := defValue s; value := v; isSet := isSet s;
     parser_prog := parser_prog s |}.

Definition with_isSet (s : SingleArgument) (b : bool) : SingleArgument :=
  {| token := token s; shortToken := shortToken s; metavar := metavar s;
     optional := optional s; positional := positional s; help := help s;
     choices := choices s; useDefault := useDefault s;
     defValue := defValue s; value := value s; isSet := b;
     parser_prog := parser_prog s |}.

Definition with_choices (s : SingleArgument) (c : list string) : SingleArgument :=
  {| token := token s; shortToken := shortToken s; metavar := metavar s;
     optional := optional s; positional := positional s; help := help s;
     choices := c; useDefault := useDefault s;
     defValue := defValue s; value := value s; isSet := isSet s;
     parser_prog := parser_prog s |}.

(** The embedded [SingleArgument] of an argument, and its replacement. *)
Definition base {P} (a : Argument_ P) : SingleArgument :=
  match a with
  | Single s | Multi s _ _ | Subcommand s _ => s
  end.

Definition with_base {P} (a : Argument_ P) (s : SingleArgument) : Argument_ P :=
  match a with
  | Single _ => Single s
  | Multi _ lo hi => Multi s lo hi
  | Subcommand _ m => Subcommand s m
  end.

Definition isUpperChar (ch : ascii) : bool :=
  (65 <=? strings.byte_of ch) && (strings.byte_of ch <=? 90).

Definition byteAt (str : string) (i : nat) : ascii :=
  match String.get i str with Some c => c | None => zero end.

Definition WriteByte (buf : string) (c : ascii) : string :=
  buf ++ String c EmptyString.

(** The loop of [splitCamelString] from index [i], [n] iterations left,
    with the buffer written so far. *)
Fixpoint splitCamel_loop (str : string) (n i : nat) (buf : string) : string :=
  match n with
  | O => buf
  | S n' =>
      let c := byteAt str i in
      let buf' :=
        if isUpperChar c then
          let buf1 :=
            if (0 <? String.length buf)%nat
               && negb (isUpperChar (byteAt str (i - 1)))
               && negb (Ascii.eqb (byteAt str (i - 1)) "-")
            then WriteByte buf "-" else buf in
          WriteByte buf1 (strings.of_byte (strings.byte_of c - 65 + 97))
        else if Ascii.eqb c "_" then WriteByte buf "-"
        else WriteByte buf c in
      splitCamel_loop str n' (S i) buf'
  end.

Definition splitCamelString (str : string) : string :=
  if String.eqb (strings.ToUpper str) str then str
  else splitCamel_loop str (String.length str) 0 EmptyString.

Section Methods.
Context {P : Type}.
Implicit Type a : Argument_ P.

Definition NeedData a : bool :=
  match KindOf (TypeOf (value (base a))) with
  | KBool => false
  | _ => true
  end.

Definition Token a : string := splitCamelString (token (base a)).
Definition ShortToken a : string := shortToken (base a).
Definition IsOptional a : bool := optional (base a).
Definition IsPositional a : bool := positional (base a).

Definition IsMulti a : bool :=
  match a with Multi _ _ _ => true | _ => false end.
Definition IsSubcommand a : bool :=
  match a with Subcommand _ _ => true | _ => false end.

Definition MetaVar a : string :=
  let s := base a in
  if (0 <? String.length (metavar s))%nat then metavar s
  else if (0 <? length (choices s))%nat
  then "{" ++ strings.Join (choices s) "," ++ "}"
  else strings.ToUpper (strings.ReplaceByte (Token a) "-" "_").

Definition InChoices (s : SingleArgument) (val : string) : bool :=
  if (0 <? length (choices s))%nat then existsb (String.eqb val) (choices s)
  else true.

End Methods.

Section WithExternal.
Variable ext : External.

Section Methods.
Context {P : Type}.
Implicit Type a : Argument_ P.

(** [SetValue]: [MultiArgument] overrides the method of [SingleArgument];
    [SubcommandArgument] inherits it. *)
Definition SetValue a (val : string) : Argument_ P * status :=
  let s := base a in
  match a with
  | Multi _ _ _ =>
      if negb (InChoices s val)
      then (a, Err (UnknownArgumentFor val (Token a) (MetaVar a)))
      else match gotypes.AppendValue ext (value s) val with
           | (_, Some e) => (a, Err e)
           | (v, None) => (with_base a (with_isSet (with_value s v) true), Nil)
           end
  | _ =>
      if negb (InChoices s val)
      then (a, Err (UnknownArgumentFor val (token s) (MetaVar a)))
      else match gotypes.SetValue ext (value s) val with
           | (_, Some e) => (a, Err e)
           | (v, None) => (with_base a (with_isSet (with_value s v) true), Nil)
           end
  end.

(** [DoAction] is [SingleArgument]'s for all three.  [defValue.Bool()]
    panics unless the default is a boolean. *)
Definition DoAction a : Argument_ P * status :=
  let s := base a in
  match value s with
  | VBool _ =>
      if useDefault s then
        match defValue s with
        | Some (VBool d) =>
            (with_base a (with_isSet (with_value s (VBool (negb d))) true), Nil)
        | _ => (a, Panic)
        end
      else (with_base a (with_isSet (with_value s (VBool true)) true), Nil)
  | _ => (a, Nil)
  end.

End Methods.
End WithExternal.

(** Identity of types, as [reflect] compares them. *)
Fixpoint Type_eqb (t u : Type_) : bool :=
  match t, u with
  | TBool, TBool | TString, TString => true
  | TInt k, TInt k' =>
      match k, k' with
      | Int, Int | Int8, Int8 | Int16, Int16 | Int32, Int32 | Int64, Int64 => true
      | _, _ => false
      end
  | TUint k, TUint k' =>
      match k, k' with
      | Uint, Uint | Uint8, Uint8 | Uint16, Uint16 | Uint32, Uint32
      | Uint64, Uint64 => true
      | _, _ => false
      end
  | TFloat k, TFloat k' =>
      match k, k' with
      | Float32, Float32 | Float64, Float64 => true
      | _, _ => false
      end
  | TSlice e, TSlice e' => Type_eqb e e'
  | TArray n e, TArray n' e' => Nat.eqb n n' && Type_eqb e e'
  | TStruct fs, TStruct gs =>
      (fix fields_eqb (fs gs : list StructField) : bool :=
         match fs, gs with
         | [], [] => true
         | Field n tg ty :: fs', Field n' tg' ty' :: gs' =>
             String.eqb n n'
             && bool_decide (tg = tg')
             && Type_eqb ty ty' && fields_eqb fs' gs'
         | _, _ => false
         end) fs gs
  | TOther n, TOther n' => String.eqb n n'
  | _, _ => false
  end.

(** [value.Set(x)]: panics unless [x] is valid and of the slot's type. *)
Definition Set_ (slot : Value) (x : option Value) : option Value :=
  match x with
  | Some v => if Type_eqb (TypeOf v) (TypeOf slot) then Some v else None
  | None => None
  end.

Definition SingleArgument_Validate (s : SingleArgument) : SingleArgument * status :=
  if negb (optional s) && negb (isSet s) && negb (useDefault s)
  then (s, Err (NonOptionalNotSet (token s)))
  else if negb (isSet s) && useDefault s then
    match Set_ (value s) (defValue s) with
    | Some v => (with_value s v, Nil)
    | None => (s, Panic)
    end
  else (s, Nil).

Definition MultiArgument_Validate (s : SingleArgument) (minCount maxCount : Z)
  : SingleArgument * status :=
  match SingleArgument_Validate s with
  | (s', Nil) =>
      match Len (value s') with
      | None => (s', Panic)
      | Some vallen =>
          if (0 <=? minCount) && (vallen <? minCount)
          then (s', Err (CountAtLeast minCount))
          else if (0 <=? maxCount) && (maxCount <? vallen)
          then (s', Err (CountAtMost maxCount))
          else (s', Nil)
      end
  | r => r
  end.

Definition Validate {P} (a : Argument_ P) : Argument_ P * status :=
  match a with
  | Multi s lo hi =>
      let '(s', e) := MultiArgument_Validate s lo hi in (Multi s' lo hi, e)
  | _ => let '(s', e) := SingleArgument_Validate (base a) in (with_base a s', e)
  end.

(** [GetSubParser]: the parser registered under the text of the slot. *)
Definition GetSubParser {P} (a : Argument_ P) : option P :=
  match a with
  | Subcommand s subcommands => subcommands !! String_ (value s)
  | _ => None
  end.

(** The nested parser of a subcommand argument replaced, after the nested
    parse has updated it in place. *)
Definition with_subparser {P} (a : Argument_ P) (sub : P) : Argument_ P :=
  match a with
  | Subcommand s subcommands =>
      Subcommand s (<[String_ (value s) := sub]> subcommands)
  | _ => a
  end.

(** ** The parser *)

Definition with_optArgs (this : ArgumentParser) (l : list Argument) :=
  {| prog := prog this; description := description this;
     epilog := epilog this; optArgs := l; posArgs := posArgs this |}.

Definition with_posArgs (this : ArgumentParser) (l : list Argument) :=
  {| prog := prog this; description := description this;
     epilog := epilog this; optArgs := optArgs this; posArgs := l |}.

Definition AddArgument (this : ArgumentParser) (arg : Argument)
  : ArgumentParser * status :=
  if IsPositional arg then
    match last (posArgs this) with
    | Some last_arg =>
        if IsMulti last_arg then (this, Err AfterArrayPositional)
        else if IsSubcommand last_arg then (this, Err AfterSubcommand)
        else if IsOptional last_arg && negb (IsOptional arg)
        then (this, Err AfterOptionalPositional)
        else (with_posArgs this (posArgs this ++ [arg]), Nil)
    | None => (with_posArgs this (posArgs this ++ [arg]), Nil)
    end
  else (with_optArgs this (optArgs this ++ [arg]), Nil).

(** [findOptionalArgument]: the loop over [optArgs] from index [i] with the
    match found so far.  The Go function returns the argument (a pointer);
    here it comes with its index, through which the caller stores the
    mutated argument back. *)
Fixpoint findOptionalArgument_loop (args : list Argument) (token : string)
    (i : nat) (match_arg : option (nat * Argument)) : option (nat * Argument) :=
  match args with
  | [] => match_arg
  | arg :: args' =>
      if strings.HasPrefix (Token arg) token
         || strings.HasPrefix (ShortToken arg) token
      then match match_arg with
           | Some _ => None
           | None => findOptionalArgument_loop args' token (S i) (Some (i, arg))
           end
      else findOptionalArgument_loop args' token (S i) match_arg
  end.

Definition findOptionalArgument (this : ArgumentParser) (token : string)
  : option (nat * Argument) :=
  findOptionalArgument_loop (optArgs this) token 0 None.

Fixpoint validateArgs (args : list Argument) : list Argument * status :=
  match args with
  | [] => ([], Nil)
  | arg :: args' =>
      match Validate arg with
      | (arg', Nil) =>
          let '(rest, e) := validateArgs args' in (arg' :: rest, e)
      | (arg', Err e) => (arg' :: args', Err (ArgError (Token arg) e))
      | (arg', Panic) => (arg' :: args', Panic)
      end
  end.

Definition ArgumentParser_Validate (this : ArgumentParser)
  : ArgumentParser * status :=
  match validateArgs (posArgs this) with
  | (pos, Nil) =>
      let this' := with_posArgs this pos in
      let '(opt, e) := validateArgs (optArgs this') in
      (with_optArgs this' opt, e)
  | (pos, e) => (with_posArgs this pos, e)
  end.

Section Parsing.
Variable ext : External.

(** How the [for] loop of [ParseArgs] is left: the tokens ran out, the
    [break] after a nested parse, or a [return] from inside the loop. *)
Inductive loop_exit :=
| LoopEnd (this : ArgumentParser) (pos_idx : nat)
| LoopBreak (this : ArgumentParser) (pos_idx : nat)
| LoopReturn (this : ArgumentParser) (e : status).

(** What follows the loop: the check for a missing required positional,
    then validation. *)
Definition after_loop (x : loop_exit) : ArgumentParser * status :=
  match x with
  | LoopReturn this e => (this, e)
  | LoopEnd this pos_idx | LoopBreak this pos_idx =>
      match posArgs this !! pos_idx with
      | Some arg =>
          if negb (IsOptional arg) then (this, Err NotEnoughArguments)
          else ArgumentParser_Validate this
      | None => ArgumentParser_Validate this
      end
  end.

(** The loop of [ParseArgs] over the tokens [args[i:]] still to read.  The
    nested call [subparser.ParseArgs(args[i+1:], ignore_unknown)] is the
    loop on the nested parser followed by [after_loop]. *)
Fixpoint ParseArgs_loop (this : ArgumentParser) (pos_idx : nat)
    (args : list string) (ignore_unknown : bool) {struct args} : loop_exit :=
  match args with
  | [] => LoopEnd this pos_idx
  | tok :: rest =>
      if strings.HasPrefix tok "-" then
        match findOptionalArgument this (strings.TrimLeft tok "-") with
        | Some (idx, arg) =>
            if NeedData arg then
              match rest with
              | val :: rest' =>
                  match SetValue ext arg val with
                  | (arg', Nil) =>
                      ParseArgs_loop
                        (with_optArgs this (<[idx := arg']> (optArgs this)))
                        pos_idx rest' ignore_unknown
                  | (arg', err) =>
                      LoopReturn
                        (with_optArgs this (<[idx := arg']> (optArgs this)))
                        err
                  end
              | [] => LoopReturn this (Err (MissingArguments tok))
              end
            else
              match DoAction arg with
              | (arg', Nil) =>
                  ParseArgs_loop
                    (with_optArgs this (<[idx := arg']> (optArgs this)))
                    pos_idx rest ignore_unknown
              | (arg', err) =>
                  LoopReturn
                    (with_optArgs this (<[idx := arg']> (optArgs this)))
                    err
              end
        | None =>
            if negb ignore_unknown
            then LoopReturn this (Err (UnknownOptional tok))
            else ParseArgs_loop this pos_idx rest ignore_unknown
        end
      else
        match posArgs this !! pos_idx with
        | None =>
            match last (posArgs this) with
            | Some last_arg =>
                if IsMulti last_arg then
                  let '(last_arg', _) := SetValue ext last_arg tok in
                  ParseArgs_loop
                    (with_posArgs this
                       (<[pred (length (posArgs this)) := last_arg']>
                          (posArgs this)))
                    pos_idx rest ignore_unknown
                else if negb ignore_unknown
                then LoopReturn this (Err (UnknownPositional tok))
                else ParseArgs_loop this pos_idx rest ignore_unknown
            | None =>
                if negb ignore_unknown
                then LoopReturn this (Err (UnknownPositional tok))
                else ParseArgs_loop this pos_idx rest ignore_unknown
            end
        | Some arg =>
            match SetValue ext arg tok with
            | (arg', Nil) =>
                let this' :=
                  with_posArgs this (<[pos_idx := arg']> (posArgs this)) in
                if IsSubcommand arg' then
                  match GetSubParser arg' with
                  | None => LoopReturn this' Panic
                  | Some subparser =>
                      let '(subparser', err) :=
                        after_loop
                          (ParseArgs_loop subparser 0 rest ignore_unknown) in
                      let this'' :=
                        with_posArgs this
                          (<[pos_idx := with_subparser arg' subparser']>
                             (posArgs this)) in
                      match err with
                      | Nil => LoopBreak this'' (S pos_idx)
                      | _ => LoopReturn this'' err
                      end
                  end
                else ParseArgs_loop this' (S pos_idx) rest ignore_unknown
            | (arg', err) =>
                LoopReturn
                  (with_posArgs this (<[pos_idx := arg']> (posArgs this))) err
            end
        end
  end.

Definition ParseArgs (this : ArgumentParser) (args : list string)
    (ignore_unknown : bool) : ArgumentParser * status :=
  after_loop (ParseArgs_loop this 0 args ignore_unknown).

Definition ParseKnownArgs (this : ArgumentParser) (args : list string) :=
  ParseArgs this args true.

End Parsing.

(** ** Schema derivation *)

Section Schema.
Variable ext : External.

Definition TAG_HELP := "help".
Definition TAG_TOKEN := "token".
Definition TAG_SHORT_TOKEN := "short-token".
Definition TAG_METAVAR := "metavar".
Definition TAG_DEFAULT := "default".
Definition TAG_CHOICES := "choices".
Definition TAG_OPTIONAL := "optional".
Definition TAG_SUBCOMMAND := "subcommand".
Definition TAG_NARGS := "nargs".

(** The loop over the candidates of the [default] tag: [defval] afterwards,
    or [None] for the panic of [dv[0]] on an empty candidate. *)
Fixpoint resolveDefault (cands : list string) (defval : string) : option string :=
  match cands with
  | [] => Some defval
  | dv :: cands' =>
      match dv with
      | EmptyString => None
      | String c _ =>
          let dv' := if Ascii.eqb c "$"
                     then Getenv ext (strings.TrimLeft dv "$") else dv in
          if (0 <? String.length dv')%nat then Some dv'
          else resolveDefault cands' dv'
      end
  end.

Definition addArgument (this : ArgumentParser) (f : StructField) (v : Value)
  : ArgumentParser * status :=
  let help := Get (Tag f) TAG_HELP in
  let token := Get (Tag f) TAG_TOKEN in
  let token := if (String.length token =? 0)%nat then Name f else token in
  let shorttoken := Get (Tag f) TAG_SHORT_TOKEN in
  let metavar := Get (Tag f) TAG_METAVAR in
  let defval := Get (Tag f) TAG_DEFAULT in
  match (if (0 <? String.length defval)%nat
         then resolveDefault (strings.Split defval "|") defval
         else Some defval) with
  | None => (this, Panic)
  | Some defval =>
  let use_default := negb (String.length defval =? 0)%nat in
  let choices_str := Get (Tag f) TAG_CHOICES in
  let choices :=
    if (0 <? String.length choices_str)%nat
    then filter (fun s => (0 < String.length s)%nat) (strings.Split choices_str "|")
    else [] in
  let positional := String.eqb (Name f) (strings.ToUpper (Name f)) in
  let optional := negb positional in
  let opt_val := Get (Tag f) TAG_OPTIONAL in
  let optional :=
    if (0 <? String.length opt_val)%nat then
      if String.eqb opt_val "true" then true
      else if String.eqb opt_val "false" then false
      else optional
    else optional in
  if positional && negb optional && use_default
  then (this, Err DefaultOnRequiredPositional)
  else
  let subcommand :=
    match strconv.ParseBool (Get (Tag f) TAG_SUBCOMMAND) with
    | (b, None) => b
    | (_, Some _) => false
    end in
  match (if use_default
         then match gotypes.ParseValue ext defval (FieldType f) with
              | (_, Some e) => inr e
              | (d, None) => inl (Some d)
              end
         else inl None) with
  | inr e => (this, Err e)
  | inl defval_t =>
  let positional := if subcommand then true else positional in
  let optional := if subcommand then false else optional in
  let sarg := {| token := token; shortToken := shorttoken;
                 optional := optional; positional := positional;
                 metavar := metavar; help := help; choices := choices;
                 useDefault := use_default; defValue := defval_t;
                 value := v; isSet := false; parser_prog := prog this |} in
  if subcommand then AddArgument this (Subcommand sarg ∅)
  else match KindOf (FieldType f) with
       | KArray =>
           let nargs := Get (Tag f) TAG_NARGS in
           if String.eqb nargs "*" then AddArgument this (Multi sarg 0 (-1))
           else if String.eqb nargs "?" then AddArgument this (Multi sarg 0 1)
           else if String.eqb nargs "+" then AddArgument this (Multi sarg 1 (-1))
           else match strconv.ParseInt nargs 64 with
                | (min, None) => AddArgument this (Multi sarg min min)
                | (_, Some _) => (this, Err (UnknownNargs nargs))
                end
       | _ => AddArgument this (Single sarg)
       end
  end
  end.

(** [addStructArgument]: the loop over the fields [tp.Field(i)] with their
    values [val.Field(i)].  A field of struct kind [return]s the result of
    the recursive call. *)
Fixpoint addStructArgument (this : ArgumentParser) (tp : Type_) (val : Value)
    {struct tp} : ArgumentParser * status :=
  match tp with
  | TStruct fields =>
      (fix loop (this : ArgumentParser) (fields : list StructField) (i : nat)
         {struct fields} : ArgumentParser * status :=
         match fields with
         | [] => (this, Nil)
         | f :: fields' =>
             match Field_ val i with
             | None => (this, Panic)
             | Some v =>
                 match f with
                 | Field _ _ ((TStruct _) as ft) => addStructArgument this ft v
                 | _ =>
                     match addArgument this f v with
                     | (this', Nil) => loop this' fields' (S i)
                     | r => r
                     end
                 end
             end
         end) this fields 0%nat
  | _ => (this, Panic)
  end.

(** [NewArgumentParser]: [target] is the structure the Go argument points
    to; the result is [nil] together with the error when derivation fails. *)
Definition NewArgumentParser (target : Value) (prog desc epilog : string)
  : option ArgumentParser * status :=
  let parser := {| prog := prog; description := desc; epilog := epilog;
                   optArgs := []; posArgs := [] |} in
  match addStructArgument parser (TypeOf target) target with
  | (parser', Nil) => (Some parser', Nil)
  | (_, e) => (None, e)
  end.

(** [AddSubParser] on the subcommand argument with embedded [s] and registry
    [subcommands]: the argument afterwards, the new parser, the error. *)
Definition AddSubParser (s : SingleArgument)
    (subcommands : gmap string ArgumentParser)
    (target : Value) (command desc : string)
  : Argument * option ArgumentParser * status :=
  let prog := parser_prog s ++ " " ++ command in
  match NewArgumentParser target prog desc "" with
  | (Some parser, Nil) =>
      (Subcommand (with_choices s (choices s ++ [command]))
         (<[command := parser]> subcommands), Some parser, Nil)
  | (_, e) => (Subcommand s subcommands, None, e)
  end.

End Schema.

(** [GetSubcommand]: the last positional argument, when it is a
    subcommand. *)
Definition GetSubcommand (this : ArgumentParser) : option Argument :=
  match last (posArgs this) with
  | Some last_arg => if IsSubcommand last_arg then Some last_arg else None
  | None => None
  end.

(** [HelpString] of [SingleArgument]: every line of the help text behind
    the indentation.  ([SubcommandArgument] overrides it with a walk over
    its registry, whose order Go leaves open; that one is not modelled.) *)
Definition SingleArgument_HelpString (s : SingleArgument) (indent : string)
  : string :=
  indent ++ strings.Join (strings.Split (help s) "010") (String "010" indent).

(** [ShortDescription]: the first line of the description. *)
Definition ShortDescription (this : ArgumentParser) : string :=
  match strings.Split (description this) "010" with
  | line :: _ => line
  | [] => EmptyString
  end.

(** ** The key-value file source *)

Section File.
Variable ext : External.

(** The standard logger: the messages printed so far. *)
Definition Log := list string.

Definition parseKeyValue (this : ArgumentParser) (log : Log) (key val : string)
  : ArgumentParser * Log * status :=
  match findOptionalArgument this key with
  | Some (idx, arg) =>
      let '(arg', e) := SetValue ext arg val in
      (with_optArgs this (<[idx := arg']> (optArgs this)), log, e)
  | None => (this, (log ++ [("Cannot found argument " ++ key)%string])%list, Nil)
  end.

Definition dropCR (line : string) : string :=
  strings.TrimRight_once line "013".

(** The lines a [bufio.Scanner] yields for the content of a file: split at
    newlines, a carriage return before the newline dropped, no final empty
    line.  Opening and reading the file, and the scanner's limit on the
    length of a line, are outside the model. *)
Definition ScanLines (content : string) : list string :=
  let pieces := strings.Split content "010" in
  map dropCR
    (match last pieces with
     | Some EmptyString => removelast pieces
     | _ => pieces
     end).

(** The loop of [ParseFile] over the scanned lines.  The result of
    [parseKeyValue] is not looked at. *)
Fixpoint ParseFile_loop (this : ArgumentParser) (log : Log)
    (lines : list string) : ArgumentParser * Log * status :=
  match lines with
  | [] => (this, log, Nil)
  | line :: lines' =>
      let pos := strings.IndexByte line "=" in
      if (0 <? pos) && (pos <? strings.len line) then
        let key := strings.ReplaceByte
                     (strings.Trim (strings.slice line 0 pos) " ") "_" "-" in
        let val := strings.Trim (strings.slice_from line (pos + 1)) " " in
        let '(this', log', _) := parseKeyValue this log key val in
        ParseFile_loop this' log' lines'
      else (this, log, Err (MisformatedLine line))
  end.

Definition ParseFile (this : ArgumentParser) (log : Log) (content : string)
  : ArgumentParser * Log * status :=
  ParseFile_loop this log (ScanLines content).

End File.

(** ** Definitions the statements use *)

(** An environment with no variable set, whose float parser rejects every
    text.  The closed examples below are stated in it; none of them has a
    floating-point slot or a default read from the environment. *)
Definition ext_none : External :=
  {| ParseFloat := fun _ => (0, Some strconv.ErrSyntax);
     toFloat32 := fun x => x;
     Getenv := fun _ => EmptyString |}.

(** Decimal text: a non-empty string of digits, and the number it denotes. *)
Fixpoint allDigits (s : string) : bool :=
  match s with
  | EmptyString => true
  | String c s' => strconv.isDigit c && allDigits s'
  end.

Definition isDecimal (s : string) : bool :=
  negb (String.eqb s EmptyString) && allDigits s.

Fixpoint decimalFrom (acc : Z) (s : string) : Z :=
  match s with
  | EmptyString => acc
  | String c s' => decimalFrom (acc * 10 + strconv.digit c) s'
  end.

Definition decimalValue (s : string) : Z := decimalFrom 0 s.

(** The invariant of the positional sequence: only its last element may be
    multi-valued or a subcommand, and nothing required follows an optional
    element. *)
Definition PositionalInvariant (l : list Argument) : Prop :=
  (forall (i : nat) a, l !! i = Some a ->
     IsMulti a || IsSubcommand a = true -> S i = length l) /\
  (forall (i j : nat) a b, (i < j)%nat -> l !! i = Some a -> l !! j = Some b ->
     IsOptional a = true -> IsOptional b = true).

Definition emptyParser (prog desc epilog : string) : ArgumentParser :=
  {| prog := prog; description := desc; epilog := epilog;
     optArgs := []; posArgs := [] |}.

(** A sequence of registrations; one that fails leaves the parser as it was. *)
Definition registerAll (this : ArgumentParser) (args : list Argument)
  : ArgumentParser :=
  foldl (fun p a => fst (AddArgument p a)) this args.

(** An argument description with no tag but its name, as [addArgument]
    builds it for an untagged field. *)
Definition plainArg (token : string) (positional optional : bool) (v : Value)
  : SingleArgument :=
  {| token := token; shortToken := EmptyString; metavar := EmptyString;
     optional := optional; positional := positional; help := EmptyString;
     choices := []; useDefault := false; defValue := None; value := v;
     isSet := false; parser_prog := "prog" |}.

(** Sample arguments and parsers for the closed examples. *)
Definition ex_NAME : Argument :=
  Single (plainArg "NAME" true false (VString EmptyString)).
Definition ex_FILES : Argument :=
  Multi (plainArg "FILES" true false (VSlice TString [])) 1 (-1).
Definition ex_files_parser : ArgumentParser :=
  with_posArgs (emptyParser "prog" EmptyString EmptyString) [ex_FILES].

(** The test [findOptionalArgument] applies to each optional argument: the
    text is a prefix of its long token or of its short token. *)
Definition matchesToken (arg : Argument) (t : string) : bool :=
  strings.HasPrefix (Token arg) t || strings.HasPrefix (ShortToken arg) t.

Definition ex_Format : Argument :=
  Single (plainArg "Format" false true (VString EmptyString)).
Definition ex_Force : Argument :=
  Single (plainArg "Force" false true (VString EmptyString)).
Definition ex_two_options : ArgumentParser :=
  with_optArgs (emptyParser "prog" EmptyString EmptyString) [ex_Format; ex_Force].

Definition ex_TAGS : Argument :=
  Multi {| token := "TAGS"; shortToken := EmptyString; metavar := EmptyString;
           optional := false; positional := true; help := EmptyString;
           choices := ["a"; "b"]; useDefault := false; defValue := None;
           value := VSlice TString []; isSet := false; parser_prog := "prog" |}
        1 (-1).
Definition ex_tags_parser : ArgumentParser :=
  with_posArgs (emptyParser "prog" EmptyString EmptyString) [ex_TAGS].

(** The embedded argument of a subcommand after the command [name] has
    been stored in its (text) slot. *)
Definition selected (s : SingleArgument) (name : string) : SingleArgument :=
  with_isSet (with_value s (VString name)) true.

Definition ex_name_parser : ArgumentParser :=
  with_posArgs (emptyParser "prog run" EmptyString EmptyString) [ex_NAME].
Definition ex_SUBCMD_base : SingleArgument :=
  {| token := "SUBCMD"; shortToken := EmptyString; metavar := EmptyString;
     optional := false; positional := true; help := EmptyString;
     choices := ["run"]; useDefault := false; defValue := None;
     value := VString EmptyString; isSet := false; parser_prog := "prog" |}.
Definition ex_registry : gmap string ArgumentParser :=
  {[ "run" := ex_name_parser ]}.
Definition ex_command_parser : ArgumentParser :=
  {| prog := "prog"; description := EmptyString; epilog := EmptyString;
     optArgs := [ex_Force];
     posArgs := [Subcommand ex_SUBCMD_base ex_registry] |}.

(** The slot as validation leaves it: the default is copied into a slot
    that was not supplied; [None] when that copy panics. *)
Definition slotAfterDefault (s : SingleArgument) : option Value :=
  if negb (isSet s) && useDefault s then Set_ (value s) (defValue s)
  else Some (value s).

(** [min <= n <= max], a negative bound standing for no bound. *)
Definition withinBounds (minCount maxCount n : Z) : Prop :=
  (minCount < 0 \/ minCount <= n) /\ (maxCount < 0 \/ n <= maxCount).

(** The target [struct { Rest [0]string `optional:"false" nargs:"*"` }] and
    what is derived from it. *)
Definition ex_Rest_fields : list StructField :=
  [Field "Rest" [("optional", "false"); ("nargs", "*")] (TArray 0 TString)].
Definition ex_Rest_target : Value := VStruct ex_Rest_fields [VArray TString []].
Definition ex_Rest : Argument :=
  Multi (plainArg "Rest" false false (VArray TString [])) 0 (-1).
Definition ex_rest_parser : ArgumentParser :=
  with_optArgs (emptyParser "prog" EmptyString EmptyString) [ex_Rest].

(** Token derivation in the words of the specification.  A separator is
    inserted before the letter at index [i] when an upper-case run starts
    there: the letter is upper-case, it is not the first byte, and the byte
    before it is neither upper-case nor already a separator. *)
Definition caseBoundary (str : string) (i : nat) : bool :=
  (0 <? i)%nat && isUpperChar (byteAt str i)
  && negb (isUpperChar (byteAt str (i - 1)))
  && negb (Ascii.eqb (byteAt str (i - 1)) "-").

(** Every byte is lower-cased, an underscore becoming a hyphen. *)
Definition lowerOrHyphen (c : ascii) : ascii :=
  if isUpperChar c then strings.of_byte (strings.byte_of c + 32)
  else if Ascii.eqb c "_" then "-"%char else c.

Definition piece (str : string) (i : nat) : string :=
  (if caseBoundary str i then "-" else EmptyString)
  ++ String (lowerOrHyphen (byteAt str i)) EmptyString.

Definition hyphenate (str : string) : string :=
  foldr (fun i acc => piece str i ++ acc) EmptyString
        (seq 0 (String.length str)).

Fixpoint allChars (p : ascii -> bool) (s : string) : bool :=
  match s with
  | EmptyString => true
  | String c s' => p c && allChars p s'
  end.


(** A byte of a hyphenated lower-case token: no upper-case letter, no
    underscore. *)
Definition lowerHyphenated (c : ascii) : bool :=
  negb (isUpperChar c) && negb (Ascii.eqb c "_").

(** The key and the value [ParseFile] reads off a line, when the line has a
    separator after its first byte. *)
Definition splitLine (line : string) : option (string * string) :=
  let pos := strings.IndexByte line "=" in
  if (0 <? pos) && (pos <? strings.len line) then
    Some (strings.ReplaceByte
            (strings.Trim (strings.slice line 0 pos) " ") "_" "-",
          strings.Trim (strings.slice_from line (pos + 1)) " ")
  else None.

Definition ex_Timeout : Argument :=
  Single (plainArg "Timeout" false true (VInt Int 0)).
Definition ex_timeout_parser : ArgumentParser :=
  with_optArgs (emptyParser "prog" EmptyString EmptyString)
    [ex_Force; ex_Timeout].

(** The file of the scenario: two lines, the second with a key the schema
    does not have. *)
Definition config_content : string :=
  "timeout = 30" ++ String "010" "unknown_key = x".

(** A target with a nested structure followed by a further field:
    [struct { Conn struct { Host string }; Port string }]. *)
Definition ex_conn_fields : list StructField := [Field "Host" [] TString].
Definition ex_nested_fields : list StructField :=
  [Field "Conn" [] (TStruct ex_conn_fields); Field "Port" [] TString].
Definition ex_nested_target : Value :=
  VStruct ex_nested_fields
    [VStruct ex_conn_fields [VString EmptyString]; VString EmptyString].

(** Fields of sequence type: [Tags []string `nargs:"+"`] and
    [Pair [2]string `nargs:"2"`]. *)
Definition ex_Tags_field : StructField :=
  Field "Tags" [("nargs", "+")] (TSlice TString).
Definition ex_Pair_field : StructField :=
  Field "Pair" [("nargs", "2")] (TArray 2 TString).
Definition ex_Pair_value : Value :=
  VArray TString [VString EmptyString; VString EmptyString].

(** The arguments the two fields are registered as. *)
Definition ex_Tags_arg : Argument :=
  Single (plainArg "Tags" false true (VSlice TString [])).
Definition ex_Pair_arg : Argument :=
  Multi (plainArg "Pair" false true ex_Pair_value) 2 2.

(** ** Definitions for the further properties *)

(** The scalar types the coercion engine supports. *)
Definition isScalarType (t : Type_) : bool :=
  match t with
  | TBool | TInt _ | TUint _ | TFloat _ | TString => true
  | _ => false
  end.

(** An integer datum lies in the range of its kind. *)
Definition inRange (v : Value) : Prop :=
  match v with
  | VInt k n => - 2 ^ (intBits k - 1) <= n < 2 ^ (intBits k - 1)
  | VUint k n => 0 <= n < 2 ^ uintBits k
  | _ => True
  end.

(** Every element of a slice has the element type of the slice. *)
Definition homogeneous (v : Value) : Prop :=
  match v with
  | VSlice e l => Forall (fun x => TypeOf x = e) l
  | _ => True
  end.

Definition ex_Verbose : Argument :=
  Single (plainArg "Verbose" false true (VBool false)).

(** An optional integer argument with default 3, not yet supplied. *)
Definition ex_Level : Argument :=
  Single {| token := "Level"; shortToken := "l"; metavar := EmptyString;
            optional := true; positional := false; help := EmptyString;
            choices := []; useDefault := true; defValue := Some (VInt Int 3);
            value := VInt Int 0; isSet := false; parser_prog := "prog" |}.

Definition with_parser_prog (s : SingleArgument) (p : string) : SingleArgument :=
  {| token := token s; shortToken := shortToken s; metavar := metavar s;
     optional := optional s; positional := positional s; help := help s;
     choices := choices s; useDefault := useDefault s;
     defValue := defValue s; value := value s; isSet := isSet s;
     parser_prog := p |}.

(** The target [struct { NAME string; Verbose bool `default:"false"` }] and
    the parser derived from it. *)
Definition ex_cli_fields : list StructField :=
  [Field "NAME" [] TString; Field "Verbose" [("default", "false")] TBool].
Definition ex_cli_target : Value :=
  VStruct ex_cli_fields [VString EmptyString; VBool false].
Definition ex_VerboseFlag : Argument :=
  Single {| token := "Verbose"; shortToken := EmptyString;
            metavar := EmptyString; optional := true; positional := false;
            help := EmptyString; choices := []; useDefault := true;
            defValue := Some (VBool false); value := VBool false;
            isSet := false; parser_prog := "prog" |}.
Definition ex_cli_parser : ArgumentParser :=
  {| prog := "prog"; description := EmptyString; epilog := EmptyString;
     optArgs := [ex_VerboseFlag]; posArgs := [ex_NAME] |}.

(** A subcommand argument with no command registered yet, and the parser
    registered for [run] over the target above. *)
Definition ex_SUBCMD_empty : SingleArgument :=
  plainArg "SUBCMD" true false (VString EmptyString).
Definition ex_run_parser : ArgumentParser :=
  {| prog := "prog run"; description := "runs it"; epilog := EmptyString;
     optArgs := [Single (with_parser_prog (base ex_VerboseFlag) "prog run")];
     posArgs := [Single (with_parser_prog (base ex_NAME) "prog run")] |}.

(** Two options of which the first is named by a prefix of the second:
    [Name string] and [NameFull string]. *)
Definition ex_Name : Argument :=
  Single (plainArg "Name" false true (VString EmptyString)).
Definition ex_NameFull : Argument :=
  Single (plainArg "NameFull" false true (VString EmptyString)).
Definition ex_shadow_parser : ArgumentParser :=
  with_optArgs (emptyParser "prog" EmptyString EmptyString)
    [ex_Name; ex_NameFull].

(** What registration fixes of an argument: its kind with the bounds, and
    its description with the slot and the supplied flag blanked out. *)
Definition schema (a : Argument) : (nat * Z * Z) * SingleArgument :=
  (match a with
   | Single _ => (0%nat, 0, 0)
   | Multi _ lo hi => (1%nat, lo, hi)
   | Subcommand _ _ => (2%nat, 0, 0)
   end,
   with_isSet (with_value (base a) (VBool false)) false).

Definition sameSchema (this this' : ArgumentParser) : Prop :=
  map schema (optArgs this') = map schema (optArgs this) /\
  map schema (posArgs this') = map schema (posArgs this).

(** The parser a loop exit carries. *)
Definition exit_parser (x : loop_exit) : ArgumentParser :=
  match x with
  | LoopEnd this _ | LoopBreak this _ | LoopReturn this _ => this
  end.

(** The tokens that do not begin with the marker. *)
Definition positionalTokens (args : list string) : list string :=
  List.filter (fun tok => negb (strings.HasPrefix tok "-")) args.

(** An argument as a successful validation leaves it. *)
Definition validated (a : Argument) : Prop :=
  optional (base a) || isSet (base a) || useDefault (base a) = true /\
  (isSet (base a) = false -> useDefault (base a) = true ->
   defValue (base a) = Some (value (base a))) /\
  match a with
  | Multi s lo hi => exists n, Len (value s) = Some n /\ withinBounds lo hi n
  | _ => True
  end.

(** The errors of an unknown token. *)
Definition isUnknownError (e : error) : bool :=
  match e with
  | UnknownOptional _ | UnknownPositional _ => true
  | _ => false
  end.

Definition statusUnknown (st : status) : bool :=
  match st with
  | Err e => isUnknownError e
  | _ => false
  end.

Definition isReturn (x : loop_exit) : bool :=
  match x with LoopReturn _ _ => true | _ => false end.

(** A parser whose subcommand argument has no command registered. *)
Definition ex_no_command_parser : ArgumentParser :=
  with_posArgs (emptyParser "prog" EmptyString EmptyString)
    [Subcommand ex_SUBCMD_empty ∅].


Definition ex_NAME_alice : Argument :=
  Single (with_isSet (with_value (base ex_NAME) (VString "alice")) true).

(** A byte of a derived metavar: no lower-case letter, no hyphen. *)
Definition upperUnderscored (c : ascii) : bool :=
  negb (strings.isLowerChar c) && negb (Ascii.eqb c "-").

(** A token made of markers only. *)
Definition onlyMarkers (tok : string) : bool :=
  allChars (fun c => Ascii.eqb c "-") tok.

(** * Properties *)

(** ** The coercion engine and integer widths *)

Lemma digit_range c : strconv.isDigit c = true -> 0 <= strconv.digit c <= 9.
Proof.
  unfold strconv.isDigit, strconv.digit. intros H.
  apply andb_prop in H as [H1 H2]. lia.
Qed.

Lemma decimalFrom_ge s : forall acc,
  allDigits s = true -> 0 <= acc -> acc <= decimalFrom acc s.
Proof.
  induction s as [|c s IH]; intros acc Hd Hacc; simpl in *; [lia|].
  apply andb_prop in Hd as [Hc Hs]. pose proof (digit_range c Hc).
  specialize (IH (acc * 10 + strconv.digit c) Hs). lia.
Qed.

(** The digit loop at 64 bits computes the decimal value, or reports the
    overflow of [uint64]. *)
Lemma ParseUint_loop_decimal s : forall n,
  allDigits s = true -> 0 <= n < 2 ^ 64 ->
  strconv.ParseUint_loop s (2 ^ 64 - 1) n =
  if decimalFrom n s <? 2 ^ 64 then (decimalFrom n s, None)
  else (2 ^ 64 - 1, Some strconv.ErrRange).
Proof.
  induction s as [|c s IH]; intros n Hd Hn; simpl in Hd |- *.
  - destruct (Z.ltb_spec n (2 ^ 64)); [reflexivity | lia].
  - apply andb_prop in Hd as [Hc Hs]. rewrite Hc. simpl negb. cbv iota.
    pose proof (digit_range c Hc) as Hdig.
    set (d := strconv.digit c) in *.
    change (strconv.maxUint64 / 10 + 1) with 1844674407370955162.
    pose proof (decimalFrom_ge s (n * 10 + d) Hs ltac:(lia)) as Hge.
    destruct (Z.leb_spec 1844674407370955162 n) as [Hcut|Hcut].
    { destruct (Z.ltb_spec (decimalFrom (n * 10 + d) s) (2 ^ 64)); [lia|reflexivity]. }
    rewrite (Z.mod_small (n * 10)) by lia.
    destruct (Z.lt_ge_cases (n * 10 + d) (2 ^ 64)) as [Hsm|Hbig].
    + rewrite (Z.mod_small (n * 10 + d)) by lia.
      destruct (Z.ltb_spec (n * 10 + d) (n * 10)); [lia|].
      destruct (Z.ltb_spec (2 ^ 64 - 1) (n * 10 + d)); [lia|].
      simpl orb. cbv iota. apply IH; [assumption | lia].
    + assert (Hm : (n * 10 + d) mod 2 ^ 64 = n * 10 + d - 2 ^ 64).
      { symmetry. apply (Z.mod_unique _ _ 1); lia. }
      rewrite Hm.
      destruct (Z.ltb_spec (n * 10 + d - 2 ^ 64) (n * 10)); [|lia].
      simpl orb. cbv iota.
      destruct (Z.ltb_spec (decimalFrom (n * 10 + d) s) (2 ^ 64)); [lia|reflexivity].
Qed.

Lemma ParseUint_decimal s :
  isDecimal s = true ->
  strconv.ParseUint s 64 =
  if decimalValue s <? 2 ^ 64 then (decimalValue s, None)
  else (2 ^ 64 - 1, Some strconv.ErrRange).
Proof.
  unfold isDecimal, strconv.ParseUint, decimalValue. intros H.
  apply andb_prop in H as [Hne Hd].
  destruct s as [|c s]; [discriminate|].
  apply ParseUint_loop_decimal; [assumption | lia].
Qed.

(** C1 (as amended).  Decimal text assigned to an unsigned slot of any width
    is parsed at 64 bits: when its value fits [uint64] the assignment
    succeeds and the slot holds the value reduced modulo 2^width (no range
    check at the width of the slot); a range coercion error is raised
    exactly when the value is outside the 64-bit range, and the slot is then
    unchanged. *)
Theorem SetValue_unsigned_wraps (ext : External) (k : UintKind) (n : Z) (s : string) :
  isDecimal s = true ->
  gotypes.SetValue ext (VUint k n) s =
  if decimalValue s <? 2 ^ 64
  then (VUint k (decimalValue s mod 2 ^ uintBits k), None)
  else (VUint k n, Some (NumError "ParseUint" s strconv.ErrRange)).
Proof.
  intros H. unfold gotypes.SetValue. rewrite (ParseUint_decimal s H).
  destruct (decimalValue s <? 2 ^ 64); reflexivity.
Qed.

Lemma SetValue_unsigned_wraps_witness :
  isDecimal "300" = true /\
  gotypes.SetValue ext_none (VUint Uint8 7) "300" = (VUint Uint8 44, None).
Proof.
  split; [reflexivity|].
  exact (SetValue_unsigned_wraps ext_none Uint8 7 "300" eq_refl).
Defined.

(** C1 (counterexample).  Assigning ["300"] to an 8-bit unsigned slot does
    not fail: the slot silently receives 300 mod 256 = 44. *)
Lemma SetValue_uint8_300_no_error :
  gotypes.SetValue ext_none (VUint Uint8 0) "300" = (VUint Uint8 44, None)
  /\ fst (gotypes.ParseValue ext_none "300" (TUint Uint8)) = VUint Uint8 44
  /\ snd (gotypes.ParseValue ext_none "300" (TUint Uint8)) = None.
Proof. repeat split; reflexivity. Qed.

(** ** Registration and the positional sequence *)

Lemma PositionalInvariant_nil : PositionalInvariant [].
Proof. split; intros; simplify_eq/=. Qed.

Lemma PositionalInvariant_snoc (l : list Argument) (arg : Argument) :
  PositionalInvariant l ->
  (forall last_arg, last l = Some last_arg ->
     IsMulti last_arg = false /\ IsSubcommand last_arg = false /\
     (IsOptional last_arg = true -> IsOptional arg = true)) ->
  PositionalInvariant (l ++ [arg]).
Proof.
  intros [Htrail Hopt] Hlast. split.
  - intros i a Hi Hms. rewrite length_app. simpl.
    destruct (decide (i < length l)%nat) as [Hlt|Hge].
    + rewrite lookup_app_l in Hi by assumption.
      pose proof (Htrail i a Hi Hms) as Hend.
      assert (Hl : last l = Some a).
      { rewrite last_lookup. replace (pred (length l)) with i by lia. exact Hi. }
      destruct (Hlast a Hl) as (Hm & Hs & _).
      rewrite Hm, Hs in Hms. discriminate.
    + apply lookup_lt_Some in Hi. rewrite length_app in Hi. simpl in Hi. lia.
  - intros i j a b Hij Hi Hj Ha.
    assert (Hilt : (i < length l)%nat).
    { apply lookup_lt_Some in Hj. rewrite length_app in Hj. simpl in Hj. lia. }
    rewrite lookup_app_l in Hi by assumption.
    destruct (decide (j < length l)%nat) as [Hjlt|Hjge].
    + rewrite lookup_app_l in Hj by assumption. eauto.
    + rewrite lookup_app_r in Hj by lia.
      apply lookup_lt_Some in Hj as Hj'. simpl in Hj'.
      replace (j - length l)%nat with 0%nat in Hj by lia. simpl in Hj.
      injection Hj as <-.
      destruct (last l) as [x|] eqn:Hl.
      2:{ apply last_None in Hl. subst l. simpl in Hilt. lia. }
      destruct (Hlast x eq_refl) as (_ & _ & Himp). apply Himp.
      rewrite last_lookup in Hl.
      destruct (decide (i = pred (length l))) as [->|Hne].
      * congruence.
      * apply (Hopt i (pred (length l)) a x); [lia|assumption..].
Qed.

Lemma AddArgument_preserves (this this' : ArgumentParser) (arg : Argument) st :
  PositionalInvariant (posArgs this) ->
  AddArgument this arg = (this', st) ->
  PositionalInvariant (posArgs this').
Proof.
  intros Hinv. unfold AddArgument.
  destruct (IsPositional arg).
  - destruct (last (posArgs this)) as [x|] eqn:Hl.
    + destruct (IsMulti x) eqn:Hm; [intros [= <- <-]; exact Hinv|].
      destruct (IsSubcommand x) eqn:Hs; [intros [= <- <-]; exact Hinv|].
      destruct (IsOptional x && negb (IsOptional arg)) eqn:Ho;
        intros [= <- <-]; [exact Hinv|].
      simpl. apply PositionalInvariant_snoc; [exact Hinv|].
      intros y Hy. assert (y = x) as -> by congruence.
      repeat split; try assumption.
      intros Hx. rewrite Hx in Ho. simpl in Ho.
      destruct (IsOptional arg); [reflexivity|discriminate].
    + intros [= <- <-]. simpl. apply last_None in Hl. rewrite Hl. simpl.
      split.
      * intros [|i] a Hi _; simpl in Hi; [reflexivity|discriminate].
      * intros i [|j] a b Hij Hi Hj; simpl in Hj; [lia|discriminate].
  - intros [= <- <-]. exact Hinv.
Qed.

Lemma registerAll_invariant (args : list Argument) : forall this,
  PositionalInvariant (posArgs this) ->
  PositionalInvariant (posArgs (registerAll this args)).
Proof.
  induction args as [|a args IH]; intros this Hinv; [exact Hinv|].
  unfold registerAll. simpl. apply IH.
  destruct (AddArgument this a) as [this' st] eqn:E. simpl.
  exact (AddArgument_preserves _ _ _ _ Hinv E).
Qed.

(** C7.  Registering a positional argument fails with a schema error, and
    leaves the parser unchanged, whenever the last registered positional is
    multi-valued or a subcommand, or is optional while the new argument is
    required; a registration that returns keeps the invariant of the
    positional sequence, so every sequence of registrations starting from
    an empty parser satisfies it. *)
Theorem AddArgument_keeps_positional_invariant :
  (forall (this : ArgumentParser) (arg last_arg : Argument),
     IsPositional arg = true ->
     last (posArgs this) = Some last_arg ->
     IsMulti last_arg || IsSubcommand last_arg
       || (IsOptional last_arg && negb (IsOptional arg)) = true ->
     exists e, AddArgument this arg = (this, Err e) /\
       (e = AfterArrayPositional \/ e = AfterSubcommand
        \/ e = AfterOptionalPositional)) /\
  (forall (this this' : ArgumentParser) (arg : Argument) st,
     PositionalInvariant (posArgs this) ->
     AddArgument this arg = (this', st) ->
     PositionalInvariant (posArgs this')) /\
  (forall prog desc epilog (args : list Argument),
     PositionalInvariant
       (posArgs (registerAll (emptyParser prog desc epilog) args))).
Proof.
  split; [|split].
  - intros this arg x Hp Hl Hc. unfold AddArgument. rewrite Hp, Hl.
    destruct (IsMulti x); [eauto|].
    destruct (IsSubcommand x); [eauto|].
    simpl in Hc. rewrite Hc. eauto 6.
  - exact AddArgument_preserves.
  - intros. apply registerAll_invariant. apply PositionalInvariant_nil.
Qed.

Lemma AddArgument_keeps_positional_invariant_witness :
  IsPositional ex_NAME = true /\
  last (posArgs ex_files_parser) = Some ex_FILES /\
  exists e, AddArgument ex_files_parser ex_NAME = (ex_files_parser, Err e) /\
    (e = AfterArrayPositional \/ e = AfterSubcommand
     \/ e = AfterOptionalPositional).
Proof.
  split; [reflexivity|]. split; [reflexivity|].
  apply (proj1 AddArgument_keeps_positional_invariant
           ex_files_parser ex_NAME ex_FILES); reflexivity.
Defined.

(** ** Prefix matching of optional arguments *)

Lemma findOptionalArgument_loop_second (args : list Argument) (t : string) :
  forall (i0 : nat) m (i : nat) a,
  args !! i = Some a -> matchesToken a t = true ->
  findOptionalArgument_loop args t i0 (Some m) = None.
Proof.
  induction args as [|x args IH]; intros i0 m i a Hi Ha; [discriminate|].
  simpl. destruct i as [|i]; simpl in Hi.
  - injection Hi as ->. unfold matchesToken in Ha. rewrite Ha. reflexivity.
  - destruct (_ || _); [reflexivity|]. eapply IH; eassumption.
Qed.

Lemma findOptionalArgument_loop_two (args : list Argument) (t : string) :
  forall (i0 : nat) acc (i j : nat) a b,
  (i < j)%nat -> args !! i = Some a -> args !! j = Some b ->
  matchesToken a t = true -> matchesToken b t = true ->
  findOptionalArgument_loop args t i0 acc = None.
Proof.
  induction args as [|x args IH]; intros i0 acc i j a b Hij Hi Hj Ha Hb;
    [discriminate|].
  destruct j as [|j]; [lia|]. simpl in Hj. simpl.
  destruct i as [|i]; simpl in Hi.
  - injection Hi as ->. unfold matchesToken in Ha. rewrite Ha.
    destruct acc; [reflexivity|].
    eapply findOptionalArgument_loop_second; eassumption.
  - destruct (_ || _).
    + destruct acc; [reflexivity|].
      eapply findOptionalArgument_loop_second; [exact Hi|assumption].
    + eapply (IH _ _ i j); [lia|eassumption..].
Qed.

Lemma findOptionalArgument_ambiguous (this : ArgumentParser) (t : string)
    (i j : nat) a b :
  i <> j -> optArgs this !! i = Some a -> optArgs this !! j = Some b ->
  matchesToken a t = true -> matchesToken b t = true ->
  findOptionalArgument this t = None.
Proof.
  intros Hij Hi Hj Ha Hb. unfold findOptionalArgument.
  destruct (decide (i < j)%nat).
  - eapply (findOptionalArgument_loop_two _ _ _ _ i j); eassumption.
  - eapply (findOptionalArgument_loop_two _ _ _ _ j i); [lia|eassumption..].
Qed.

(** C4 (as amended).  When the marker-stripped text of a token is a prefix
    of the long or short token of two different registered optional
    arguments, in whatever order they were registered, the lookup finds
    nothing; in strict mode the parse returns, at that token and with the
    parser untouched, the error of an unknown optional argument (there is
    no separate ambiguity error); in lenient mode the token is skipped. *)
Theorem ambiguous_prefix_strict_fails (ext : External)
    (this : ArgumentParser) (i j : nat) (a b : Argument)
    (tok : string) (rest : list string) (pos_idx : nat) :
  i <> j -> optArgs this !! i = Some a -> optArgs this !! j = Some b ->
  strings.HasPrefix tok "-" = true ->
  matchesToken a (strings.TrimLeft tok "-") = true ->
  matchesToken b (strings.TrimLeft tok "-") = true ->
  findOptionalArgument this (strings.TrimLeft tok "-") = None /\
  ParseArgs_loop ext this pos_idx (tok :: rest) false
    = LoopReturn this (Err (UnknownOptional tok)) /\
  ParseArgs ext this (tok :: rest) false = (this, Err (UnknownOptional tok)) /\
  ParseArgs_loop ext this pos_idx (tok :: rest) true
    = ParseArgs_loop ext this pos_idx rest true.
Proof.
  intros Hij Hi Hj Hm Ha Hb.
  pose proof (findOptionalArgument_ambiguous this _ i j a b Hij Hi Hj Ha Hb) as Hf.
  split; [exact Hf|].
  unfold ParseArgs. simpl. rewrite Hm, Hf. simpl. auto.
Qed.

Lemma ambiguous_prefix_strict_fails_witness :
  ParseArgs ext_none ex_two_options ["--fo"; "x"] false
    = (ex_two_options, Err (UnknownOptional "--fo")).
Proof.
  apply (ambiguous_prefix_strict_fails ext_none ex_two_options 0 1
           ex_Format ex_Force "--fo" ["x"] 0);
    first [reflexivity | discriminate].
Defined.

(** C4 (counterexample).  Two optional arguments [--format] and [--force]
    share the prefix [fo]; the lenient parse of [--fo] succeeds, in either
    registration order, and sets neither. *)
Lemma ambiguous_prefix_lenient_succeeds :
  ParseArgs ext_none ex_two_options ["--fo"] true = (ex_two_options, Nil) /\
  ParseArgs ext_none (with_optArgs ex_two_options [ex_Force; ex_Format])
    ["--fo"] true
    = (with_optArgs ex_two_options [ex_Force; ex_Format], Nil).
Proof. split; reflexivity. Qed.

(** ** The token loop *)

Lemma with_posArgs_id (this : ArgumentParser) :
  with_posArgs this (posArgs this) = this.
Proof. destruct this; reflexivity. Qed.

Lemma with_optArgs_id (this : ArgumentParser) :
  with_optArgs this (optArgs this) = this.
Proof. destruct this; reflexivity. Qed.

(** A run of the loop that reads all of [pre] is the beginning of the run
    on any longer input. *)
Lemma ParseArgs_loop_app (ext : External) (ig : bool) (pre : list string) :
  forall (this this1 : ArgumentParser) (k k1 : nat) (more : list string),
  ParseArgs_loop ext this k pre ig = LoopEnd this1 k1 ->
  ParseArgs_loop ext this k (pre ++ more) ig
    = ParseArgs_loop ext this1 k1 more ig.
Proof.
  induction pre as [pre IH] using (induction_ltof1 _ (@length string)).
  unfold ltof in IH.
  intros this this1 k k1 more H.
  destruct pre as [|tok rest]; [simpl in H; injection H as -> ->; reflexivity|].
  cbn [app]. cbn [ParseArgs_loop] in H |- *.
  destruct (strings.HasPrefix tok "-").
  - destruct (findOptionalArgument this (strings.TrimLeft tok "-"))
      as [[idx arg]|].
    + destruct (NeedData arg).
      * destruct rest as [|val rest']; [discriminate|]. cbn [app].
        destruct (SetValue ext arg val) as [arg' [|e|]]; try discriminate.
        apply IH; [simpl; lia|exact H].
      * destruct (DoAction arg) as [arg' [|e|]]; try discriminate.
        apply IH; [simpl; lia|exact H].
    + destruct (negb ig); [discriminate|].
      apply IH; [simpl; lia|exact H].
  - destruct (posArgs this !! k) as [arg|].
    + destruct (SetValue ext arg tok) as [arg' [|e|]]; try discriminate.
      destruct (IsSubcommand arg').
      * destruct (GetSubParser arg') as [sub|]; [|discriminate].
        destruct (after_loop _) as [sub' [|e|]]; discriminate.
      * apply IH; [simpl; lia|exact H].
    + destruct (last (posArgs this)) as [last_arg|].
      * destruct (IsMulti last_arg).
        -- destruct (SetValue ext last_arg tok) as [last_arg' st].
           apply IH; [simpl; lia|exact H].
        -- destruct (negb ig); [discriminate|].
           apply IH; [simpl; lia|exact H].
      * destruct (negb ig); [discriminate|].
        apply IH; [simpl; lia|exact H].
Qed.

(** [SetValue] leaves the argument as it was when it returns an error. *)
Lemma SetValue_error_unchanged (ext : External) (a a' : Argument) (val : string) e :
  SetValue ext a val = (a', Err e) -> a' = a.
Proof.
  unfold SetValue. destruct a; simpl;
    destruct (negb (InChoices _ _));
    try (intros [= <- _]; reflexivity).
  - destruct (gotypes.SetValue _ _ _) as [v [e'|]]; intros [= <-]; reflexivity.
  - destruct (gotypes.AppendValue _ _ _) as [v [e'|]]; intros [= <-]; reflexivity.
  - destruct (gotypes.SetValue _ _ _) as [v [e'|]]; intros [= <-]; reflexivity.
Qed.

(** C10.  Once every declared positional slot is filled and the last
    declared positional is multi-valued, a further non-marker token is
    appended to it and the error of the append is not looked at: a value
    the append rejects (outside the choices, or not coercible) is dropped,
    in strict mode as in lenient mode, and the parse goes on with the next
    token from the same state, so the whole parse gives what it gives
    without the rejected token; a value the append accepts is stored. *)
Theorem overflow_append_error_is_discarded (ext : External)
    (this this1 : ArgumentParser) (k : nat) (last_arg : Argument)
    (pre : list string) (tok : string) (rest : list string) (ig : bool) :
  ParseArgs_loop ext this 0 pre ig = LoopEnd this1 k ->
  posArgs this1 !! k = None ->
  last (posArgs this1) = Some last_arg ->
  IsMulti last_arg = true ->
  strings.HasPrefix tok "-" = false ->
  (forall e, snd (SetValue ext last_arg tok) = Err e ->
     ParseArgs_loop ext this1 k (tok :: rest) ig
       = ParseArgs_loop ext this1 k rest ig /\
     ParseArgs ext this (pre ++ tok :: rest) ig
       = ParseArgs ext this (pre ++ rest) ig) /\
  (forall last_arg', SetValue ext last_arg tok = (last_arg', Nil) ->
     ParseArgs_loop ext this1 k (tok :: rest) ig
       = ParseArgs_loop ext
           (with_posArgs this1
              (<[pred (length (posArgs this1)) := last_arg']> (posArgs this1)))
           k rest ig).
Proof.
  intros Hpre Hk Hlast Hmulti Htok. split.
  - intros e He.
    assert (Hstep : ParseArgs_loop ext this1 k (tok :: rest) ig
                    = ParseArgs_loop ext this1 k rest ig).
    { cbn [ParseArgs_loop]. rewrite Htok, Hk, Hlast, Hmulti.
      destruct (SetValue ext last_arg tok) as [a' st] eqn:E. simpl in He.
      subst st. apply SetValue_error_unchanged in E. subst a'.
      rewrite list_insert_id by (rewrite <- last_lookup; exact Hlast).
      rewrite with_posArgs_id. reflexivity. }
    split; [exact Hstep|].
    unfold ParseArgs.
    rewrite (ParseArgs_loop_app ext ig pre this this1 0 k _ Hpre).
    rewrite (ParseArgs_loop_app ext ig pre this this1 0 k _ Hpre).
    rewrite Hstep. reflexivity.
  - intros a' E. cbn [ParseArgs_loop]. rewrite Htok, Hk, Hlast, Hmulti, E.
    reflexivity.
Qed.

Lemma overflow_append_error_is_discarded_witness :
  ParseArgs ext_none ex_tags_parser (["a"] ++ "zzz" :: ["b"]) false
    = ParseArgs ext_none ex_tags_parser (["a"] ++ ["b"]) false /\
  snd (ParseArgs ext_none ex_tags_parser ["a"; "zzz"; "b"] false) = Nil.
Proof.
  split; [|reflexivity].
  refine (proj2 (proj1 (overflow_append_error_is_discarded ext_none
            ex_tags_parser _ 1 _ ["a"] "zzz" ["b"] false
            eq_refl eq_refl eq_refl eq_refl eq_refl) _ eq_refl)).
Defined.

(** ** Delegation to the nested parser of a subcommand *)

Lemma SetValue_subcommand (ext : External) (s : SingleArgument)
    (subs : gmap string ArgumentParser) (name : string) :
  TypeOf (value s) = TString ->
  InChoices s name = true ->
  SetValue ext (Subcommand s subs) name = (Subcommand (selected s name) subs, Nil).
Proof.
  intros Ht Hc. unfold SetValue. simpl. rewrite Hc. simpl.
  destruct (value s); try discriminate. reflexivity.
Qed.

(** C6.  When the loop has read [pre] and the next positional slot is a
    subcommand whose text slot accepts the registered command [name], then
    all the tokens [rest] after [name] go to the parser registered under
    [name], in the same mode; the outer parse reads none of them: its
    result is the error of the nested parse, or else the closing check
    and validation of the outer parser, whose state differs from the one
    before [name] only by the selected command and the updated nested
    parser. *)
Theorem subcommand_delegation (ext : External)
    (this this1 : ArgumentParser) (k : nat) (s : SingleArgument)
    (subs : gmap string ArgumentParser) (sub : ArgumentParser)
    (pre : list string) (name : string) (rest : list string) (ig : bool) :
  ParseArgs_loop ext this 0 pre ig = LoopEnd this1 k ->
  posArgs this1 !! k = Some (Subcommand s subs) ->
  TypeOf (value s) = TString ->
  InChoices s name = true ->
  subs !! name = Some sub ->
  strings.HasPrefix name "-" = false ->
  ParseArgs ext this (pre ++ name :: rest) ig =
    let '(sub', err) := ParseArgs ext sub rest ig in
    let this2 :=
      with_posArgs this1
        (<[k := Subcommand (selected s name) (<[name := sub']> subs)]>
           (posArgs this1)) in
    match err with
    | Nil => after_loop (LoopBreak this2 (S k))
    | _ => (this2, err)
    end.
Proof.
  intros Hpre Hk Ht Hc Hsub Hname. unfold ParseArgs at 1.
  rewrite (ParseArgs_loop_app ext ig pre this this1 0 k _ Hpre).
  cbn [ParseArgs_loop]. rewrite Hname, Hk.
  rewrite (SetValue_subcommand ext s subs name Ht Hc).
  cbn [IsSubcommand GetSubParser selected with_isSet with_value value String_].
  rewrite Hsub. fold (ParseArgs ext sub rest ig).
  destruct (ParseArgs ext sub rest ig) as [sub' [|e|]]; reflexivity.
Qed.

Lemma subcommand_delegation_witness :
  ParseArgs ext_none ex_command_parser (["--force"; "yes"] ++ "run" :: ["alice"]) false
  = (with_posArgs
       (with_optArgs ex_command_parser
          [Single (with_isSet (with_value (base ex_Force) (VString "yes")) true)])
       [Subcommand (selected ex_SUBCMD_base "run")
          {[ "run" := with_posArgs ex_name_parser
                        [Single (with_isSet
                                   (with_value (base ex_NAME) (VString "alice"))
                                   true)] ]}],
     Nil).
Proof.
  rewrite (subcommand_delegation ext_none ex_command_parser _ 0
             ex_SUBCMD_base ex_registry ex_name_parser
             ["--force"; "yes"] "run" ["alice"] false
             eq_refl eq_refl eq_refl eq_refl eq_refl eq_refl).
  vm_compute. reflexivity.
Defined.

(** ** Validation of a multi-valued argument *)

Lemma SingleArgument_Validate_Nil (s s' : SingleArgument) :
  SingleArgument_Validate s = (s', Nil) <->
  optional s || isSet s || useDefault s = true /\
  exists v, slotAfterDefault s = Some v /\ s' = with_value s v.
Proof.
  unfold SingleArgument_Validate, slotAfterDefault.
  destruct s as [tk st mv o p h c u d v i pp]; simpl.
  destruct o, i, u; simpl; split;
    try (intros [= <-]; split; [reflexivity|eexists; split; reflexivity]);
    try (intros [_ (w & [= <-] & ->)]; reflexivity);
    try (intros [? _]; discriminate);
    try discriminate.
  all: destruct (Set_ v d) as [w|]; simpl;
    try (intros [= <-]; split; [reflexivity|eexists; split; reflexivity]);
    try (intros [_ (w' & [= <-] & ->)]; reflexivity);
    try (intros [_ (w' & ? & _)]; discriminate);
    try discriminate.
Qed.

(** C5 (as amended).  Validation of a multi-valued argument with bounds
    [min, max] returns [nil] exactly when the scalar validation passes (the
    argument is optional, or supplied, or has a default) and the length of
    its slot, after the default has been copied into an unsupplied slot,
    lies within the bounds, a negative bound being no bound.  In
    particular, with bounds [1, -1] a supplied argument is accepted for
    every positive number of values, and an argument without default and
    with no value is rejected. *)
Theorem MultiArgument_Validate_bounds :
  (forall (s : SingleArgument) (minCount maxCount : Z),
     snd (Validate (P := ArgumentParser) (Multi s minCount maxCount)) = Nil <->
     optional s || isSet s || useDefault s = true /\
     exists v n, slotAfterDefault s = Some v /\ Len v = Some n /\
                 withinBounds minCount maxCount n) /\
  (forall (s : SingleArgument) e (l : list Value),
     value s = VSlice e l -> isSet s = true -> (0 < length l)%nat ->
     snd (Validate (P := ArgumentParser) (Multi s 1 (-1))) = Nil) /\
  (forall (s : SingleArgument) e,
     value s = VSlice e [] -> useDefault s = false ->
     snd (Validate (P := ArgumentParser) (Multi s 1 (-1))) <> Nil).
Proof.
  assert (Hmain : forall (s : SingleArgument) (minCount maxCount : Z),
     snd (Validate (P := ArgumentParser) (Multi s minCount maxCount)) = Nil <->
     optional s || isSet s || useDefault s = true /\
     exists v n, slotAfterDefault s = Some v /\ Len v = Some n /\
                 withinBounds minCount maxCount n).
  { intros s lo hi. unfold Validate, MultiArgument_Validate, withinBounds.
    destruct (SingleArgument_Validate s) as [s' st] eqn:E.
    destruct st as [|e|].
    - apply SingleArgument_Validate_Nil in E as (Hreq & v & Hv & ->).
      simpl.
      destruct (Len v) as [n|] eqn:Hlen; simpl.
      + split.
        * intros H. split; [exact Hreq|]. exists v, n.
          split; [exact Hv|]. split; [exact Hlen|].
          destruct (Z.leb_spec 0 lo), (Z.ltb_spec n lo),
            (Z.leb_spec 0 hi), (Z.ltb_spec hi n); simpl in H;
            try discriminate; lia.
        * intros (_ & v' & n' & Hv' & Hn' & [Hb1 Hb2]).
          assert (v' = v) as -> by congruence.
          assert (n' = n) as -> by congruence.
          destruct (Z.leb_spec 0 lo), (Z.ltb_spec n lo),
            (Z.leb_spec 0 hi), (Z.ltb_spec hi n); simpl;
            try reflexivity; lia.
      + split; [discriminate|].
        intros (_ & v' & n' & Hv' & Hn' & _); congruence.
    - simpl. split; [discriminate|].
      intros (Hreq & v & n & Hv & _).
      assert (SingleArgument_Validate s = (with_value s v, Nil)) as E'
        by (apply SingleArgument_Validate_Nil; eauto).
      congruence.
    - simpl. split; [discriminate|].
      intros (Hreq & v & n & Hv & _).
      assert (SingleArgument_Validate s = (with_value s v, Nil)) as E'
        by (apply SingleArgument_Validate_Nil; eauto).
      congruence. }
  split; [exact Hmain|]. split.
  - intros s e l Hv Hset Hl. apply Hmain. rewrite Hset, orb_true_r. simpl.
    split; [reflexivity|].
    exists (VSlice e l), (Z.of_nat (length l)).
    unfold slotAfterDefault, withinBounds. rewrite Hset, Hv. simpl.
    repeat split; lia.
  - intros s e Hv Hd H. apply Hmain in H as (_ & v & n & Hs & Hn & [H1 _]).
    unfold slotAfterDefault in Hs. rewrite Hd, andb_false_r, Hv in Hs.
    injection Hs as <-. simpl in Hn. injection Hn as <-. simpl in H1. lia.
Qed.

Lemma MultiArgument_Validate_bounds_witness :
  snd (Validate (P := ArgumentParser) (Multi (with_isSet
                          (with_value (base ex_FILES)
                             (VSlice TString [VString "a"; VString "b"])) true)
                   1 (-1)))
  = Nil.
Proof.
  apply (proj1 (proj2 MultiArgument_Validate_bounds) _ TString
           [VString "a"; VString "b"]); [reflexivity|reflexivity|simpl; lia].
Defined.

(** C5 (counterexample).  The required multi-valued argument derived from
    [Rest [0]string `optional:"false" nargs:"*"`] has bounds [0, -1] and a
    slot of length 0: the count is within the bounds, yet validation fails,
    and with it the strict parse of an empty command line, because the
    argument was not supplied. *)
Lemma MultiArgument_Validate_required_unset :
  NewArgumentParser ext_none ex_Rest_target "prog" EmptyString EmptyString
    = (Some ex_rest_parser, Nil) /\
  snd (Validate ex_Rest) = Err (NonOptionalNotSet "Rest") /\
  Len (value (base ex_Rest)) = Some 0 /\
  withinBounds 0 (-1) 0 /\
  snd (ParseArgs ext_none ex_rest_parser [] false)
    = Err (ArgError "rest" (NonOptionalNotSet "Rest")).
Proof. repeat split; try reflexivity; unfold withinBounds; lia. Qed.

(** ** Token derivation and classification *)

Lemma string_app_cons (x : ascii) (a b : string) :
  String x a ++ b = String x (a ++ b).
Proof. reflexivity. Qed.

Lemma string_app_nil_l (b : string) : EmptyString ++ b = b.
Proof. reflexivity. Qed.

Lemma string_app_assoc (a b c : string) : (a ++ b) ++ c = a ++ (b ++ c).
Proof.
  induction a as [|x a IH]; [reflexivity|].
  rewrite !string_app_cons. now rewrite IH.
Qed.

Lemma string_app_nil_r (a : string) : a ++ EmptyString = a.
Proof.
  induction a as [|x a IH]; [reflexivity|].
  rewrite string_app_cons. now rewrite IH.
Qed.

Lemma string_length_app (a b : string) :
  String.length (a ++ b) = (String.length a + String.length b)%nat.
Proof.
  induction a as [|x a IH]; [reflexivity|].
  rewrite string_app_cons. simpl. now rewrite IH.
Qed.

Lemma allChars_app p (a b : string) :
  allChars p (a ++ b) = allChars p a && allChars p b.
Proof.
  induction a as [|x a IH]; [reflexivity|].
  rewrite string_app_cons. simpl. rewrite IH. apply andb_assoc.
Qed.

Lemma lowerOrHyphen_ok (c : ascii) : lowerHyphenated (lowerOrHyphen c) = true.
Proof. destruct c as [[] [] [] [] [] [] [] []]; vm_compute; reflexivity. Qed.

Lemma lower_byte (c : ascii) :
  isUpperChar c = true ->
  strings.of_byte (strings.byte_of c - 65 + 97) = lowerOrHyphen c.
Proof.
  intros H. unfold lowerOrHyphen. rewrite H. f_equal. lia.
Qed.

(** One iteration of the loop writes the piece of the current index. *)
Lemma splitCamel_loop_spec (str : string) (n : nat) :
  forall (i : nat) (buf : string),
  ((0 <? String.length buf) = (0 <? i))%nat ->
  splitCamel_loop str n i buf
  = buf ++ foldr (fun i acc => piece str i ++ acc) EmptyString (seq i n).
Proof.
  induction n as [|n IH]; intros i buf Hbuf;
    cbn [splitCamel_loop seq foldr fold_right].
  - now rewrite string_app_nil_r.
  - rewrite <- string_app_assoc.
    assert (Hstep :
      (if isUpperChar (byteAt str i)
       then WriteByte
              (if (0 <? String.length buf)%nat
                  && negb (isUpperChar (byteAt str (i - 1)))
                  && negb (Ascii.eqb (byteAt str (i - 1)) "-")
               then WriteByte buf "-" else buf)
              (strings.of_byte (strings.byte_of (byteAt str i) - 65 + 97))
       else if Ascii.eqb (byteAt str i) "_" then WriteByte buf "-"
            else WriteByte buf (byteAt str i))
      = buf ++ piece str i).
    { unfold piece, caseBoundary, WriteByte. rewrite Hbuf.
      destruct (isUpperChar (byteAt str i)) eqn:Hup.
      - rewrite (lower_byte _ Hup), andb_true_r.
        destruct ((0 <? i)%nat && _ && _);
          [now rewrite string_app_assoc | reflexivity].
      - rewrite andb_false_r. simpl. unfold lowerOrHyphen. rewrite Hup.
        destruct (Ascii.eqb _ "_"); reflexivity. }
    rewrite Hstep. apply IH.
    rewrite string_length_app. unfold piece. rewrite string_length_app. simpl.
    transitivity true; [apply Nat.ltb_lt; lia|symmetry; apply Nat.ltb_lt; lia].
Qed.

Lemma hyphenate_lower (str : string) :
  allChars lowerHyphenated (hyphenate str) = true.
Proof.
  unfold hyphenate. generalize (seq 0 (String.length str)).
  induction l as [|i l IH]; simpl; [reflexivity|].
  rewrite allChars_app, IH, andb_true_r. unfold piece.
  rewrite allChars_app. simpl. rewrite lowerOrHyphen_ok.
  destruct (caseBoundary str i); reflexivity.
Qed.


(** The [subcommand] tag as [addArgument] reads it. *)
Lemma subcommand_tag_absent :
  strconv.ParseBool EmptyString = (false, Some strconv.ErrSyntax).
Proof. reflexivity. Qed.

(** What a successful [addArgument] registers. *)
Lemma addArgument_Nil (ext : External) (this this' : ArgumentParser)
    (f : StructField) (v : Value) :
  addArgument ext this f v = (this', Nil) ->
  exists arg : Argument,
    AddArgument this arg = (this', Nil) /\
    value (base arg) = v /\
    token (base arg)
      = (if (String.length (Get (Tag f) TAG_TOKEN) =? 0)%nat then Name f
         else Get (Tag f) TAG_TOKEN) /\
    (String.eqb (Name f) (strings.ToUpper (Name f)) = true ->
       positional (base arg) = true) /\
    (String.eqb (Name f) (strings.ToUpper (Name f)) = false ->
       Get (Tag f) TAG_OPTIONAL = EmptyString ->
       Get (Tag f) TAG_SUBCOMMAND = EmptyString ->
       positional (base arg) = false /\ optional (base arg) = true) /\
    (IsSubcommand arg = false ->
       IsMulti arg = match KindOf (FieldType f) with KArray => true | _ => false end).
Proof.
  unfold addArgument. intros H.
  destruct (if (0 <? String.length (Get (Tag f) TAG_DEFAULT))%nat then _ else _)
    as [defval|]; [|discriminate].
  cbv zeta in H.
  destruct (_ && _ && _) eqn:Hreq in H; [discriminate|].
  destruct (if negb _ then _ else _) as [defval_t|e] in H; [|discriminate].
  match type of H with
  | (if ?sub then AddArgument _ ?a1 else _) = _ =>
      destruct sub eqn:Hsub
  end.
  - eexists. split; [exact H|].
    cbn [base value token positional optional IsSubcommand].
    split; [reflexivity|]. split; [reflexivity|]. split; [reflexivity|].
    split; [|discriminate].
    intros Hn Ho Hs. rewrite Hs in Hsub. discriminate.
  - assert (Hflags :
      (String.eqb (Name f) (strings.ToUpper (Name f)) = false ->
       Get (Tag f) TAG_OPTIONAL = EmptyString ->
       (if (0 <? String.length (Get (Tag f) TAG_OPTIONAL))%nat
        then if String.eqb (Get (Tag f) TAG_OPTIONAL) "true" then true
             else if String.eqb (Get (Tag f) TAG_OPTIONAL) "false" then false
                  else negb (String.eqb (Name f) (strings.ToUpper (Name f)))
        else negb (String.eqb (Name f) (strings.ToUpper (Name f)))) = true)).
    { intros -> ->. reflexivity. }
    assert (Hdone : forall arg : Argument,
      AddArgument this arg = (this', Nil) ->
      value (base arg) = v ->
      token (base arg)
        = (if (String.length (Get (Tag f) TAG_TOKEN) =? 0)%nat then Name f
           else Get (Tag f) TAG_TOKEN) ->
      positional (base arg)
        = String.eqb (Name f) (strings.ToUpper (Name f)) ->
      optional (base arg)
        = (if (0 <? String.length (Get (Tag f) TAG_OPTIONAL))%nat
           then if String.eqb (Get (Tag f) TAG_OPTIONAL) "true" then true
                else if String.eqb (Get (Tag f) TAG_OPTIONAL) "false" then false
                     else negb (String.eqb (Name f) (strings.ToUpper (Name f)))
           else negb (String.eqb (Name f) (strings.ToUpper (Name f)))) ->
      IsMulti arg = match KindOf (FieldType f) with KArray => true | _ => false end ->
      exists arg : Argument,
        AddArgument this arg = (this', Nil) /\
        value (base arg) = v /\
        token (base arg)
          = (if (String.length (Get (Tag f) TAG_TOKEN) =? 0)%nat then Name f
             else Get (Tag f) TAG_TOKEN) /\
        (String.eqb (Name f) (strings.ToUpper (Name f)) = true ->
           positional (base arg) = true) /\
        (String.eqb (Name f) (strings.ToUpper (Name f)) = false ->
           Get (Tag f) TAG_OPTIONAL = EmptyString ->
           Get (Tag f) TAG_SUBCOMMAND = EmptyString ->
           positional (base arg) = false /\ optional (base arg) = true) /\
        (IsSubcommand arg = false ->
           IsMulti arg = match KindOf (FieldType f) with KArray => true | _ => false end)).
    { intros arg HA Hv Ht Hp Ho Hm. exists arg.
      split; [exact HA|]. split; [exact Hv|]. split; [exact Ht|].
      split; [intros Hn; now rewrite Hp|].
      split; [|intros _; exact Hm].
      intros Hn Hopt _. rewrite Hp, Ho. split; [exact Hn|].
      exact (Hflags Hn Hopt). }
    destruct (KindOf (FieldType f)) eqn:Hk;
      try (apply (Hdone _ H); reflexivity).
    destruct (String.eqb (Get (Tag f) TAG_NARGS) "*");
      [apply (Hdone _ H); reflexivity|].
    destruct (String.eqb (Get (Tag f) TAG_NARGS) "?");
      [apply (Hdone _ H); reflexivity|].
    destruct (String.eqb (Get (Tag f) TAG_NARGS) "+");
      [apply (Hdone _ H); reflexivity|].
    destruct (strconv.ParseInt _ 64) as [mn [e|]]; [discriminate|].
    apply (Hdone _ H); reflexivity.
Qed.



(** ** The key-value file source *)

Lemma ParseFile_loop_cons (ext : External) (this : ArgumentParser) (log : Log)
    (line : string) (rest : list string) :
  ParseFile_loop ext this log (line :: rest) =
  match splitLine line with
  | Some (key, val) =>
      let '(this', log', _) := parseKeyValue ext this log key val in
      ParseFile_loop ext this' log' rest
  | None => (this, log, Err (MisformatedLine line))
  end.
Proof.
  cbn [ParseFile_loop]. unfold splitLine.
  destruct (_ && _); reflexivity.
Qed.

Lemma splitLine_no_separator (line : string) :
  strings.IndexByte line "=" = -1 -> splitLine line = None.
Proof. unfold splitLine. intros ->. reflexivity. Qed.

(** A line without separator stops the read with a format error. *)
Lemma ParseFile_loop_misformated (ext : External) (lines : list string) :
  forall (this : ArgumentParser) (log : Log) (line : string),
  line ∈ lines -> strings.IndexByte line "=" = -1 ->
  exists this' log' bad,
    ParseFile_loop ext this log lines = (this', log', Err (MisformatedLine bad)).
Proof.
  induction lines as [|l lines IH]; intros this log line Hin Hsep.
  - apply elem_of_nil in Hin. contradiction.
  - rewrite ParseFile_loop_cons.
    destruct (splitLine l) as [[key val]|] eqn:Hl; [|eauto].
    apply elem_of_cons in Hin as [->|Hin].
    + rewrite (splitLine_no_separator _ Hsep) in Hl. discriminate.
    + destruct (parseKeyValue ext this log key val) as [[this' log'] st].
      eapply IH; eassumption.
Qed.

Lemma findOptionalArgument_loop_none (args : list Argument) (t : string) :
  forall i0 : nat,
  Forall (fun a => matchesToken a t = false) args ->
  findOptionalArgument_loop args t i0 None = None.
Proof.
  induction args as [|a args IH]; intros i0 H; [reflexivity|].
  apply Forall_cons in H as [Ha H]. simpl.
  unfold matchesToken in Ha. rewrite Ha. apply IH, H.
Qed.

Lemma small_int_fits (k : IntKind) : wrapS (intBits k) 30 = 30.
Proof. destruct k; reflexivity. Qed.

Lemma findOptionalArgument_loop_lookup (args : list Argument) (t : string) :
  forall (i0 : nat) acc (idx : nat) a,
  findOptionalArgument_loop args t i0 acc = Some (idx, a) ->
  acc = Some (idx, a) \/ ((i0 <= idx)%nat /\ args !! (idx - i0)%nat = Some a).
Proof.
  induction args as [|x args IH]; intros i0 acc idx a H; simpl in H; [auto|].
  destruct (_ || _).
  - destruct acc; [discriminate|].
    apply IH in H as [[= <- <-]|[Hle H]].
    + right. split; [lia|]. now rewrite Nat.sub_diag.
    + right. split; [lia|].
      replace (idx - i0)%nat with (S (idx - S i0)) by lia. exact H.
  - apply IH in H as [H|[Hle H]]; [auto|].
    right. split; [lia|].
    replace (idx - i0)%nat with (S (idx - S i0)) by lia. exact H.
Qed.

Lemma findOptionalArgument_lookup (this : ArgumentParser) (t : string)
    (idx : nat) (a : Argument) :
  findOptionalArgument this t = Some (idx, a) -> optArgs this !! idx = Some a.
Proof.
  intros H. apply findOptionalArgument_loop_lookup in H as [H|[_ H]];
    [discriminate|]. now rewrite Nat.sub_0_r in H.
Qed.

(** C9.  Reading the two lines [timeout = 30] and [unknown_key = x] against
    a schema in which [timeout] resolves to an optional integer argument
    accepting [30], and in which nothing matches [unknown-key], returns
    [nil]: the slot of the argument holds 30, the argument counts as
    supplied, and the unknown key has only been logged.  A file with a line
    that has no separator is a format error, returned from the read at the
    first line that is not well-formed. *)
Theorem ParseFile_config_scenario (ext : External) (this : ArgumentParser)
    (log : Log) :
  (forall (idx : nat) (s : SingleArgument) (k : IntKind) (n : Z),
     findOptionalArgument this "timeout" = Some (idx, Single s) ->
     value s = VInt k n ->
     InChoices s "30" = true ->
     Forall (fun a => matchesToken a "unknown-key" = false) (optArgs this) ->
     ParseFile ext this log config_content =
       (with_optArgs this
          (<[idx := Single (with_isSet (with_value s (VInt k 30)) true)]>
             (optArgs this)),
        (log ++ ["Cannot found argument unknown-key"])%list,
        Nil)) /\
  (forall (content line : string),
     line ∈ ScanLines content ->
     strings.IndexByte line "=" = -1 ->
     exists this' log' bad,
       ParseFile ext this log content
         = (this', log', Err (MisformatedLine bad))).
Proof.
  split.
  - intros idx s k n Hfind Hv Hc Hnone.
    unfold ParseFile.
    change (ScanLines config_content) with ["timeout = 30"; "unknown_key = x"].
    rewrite ParseFile_loop_cons.
    change (splitLine "timeout = 30") with (Some ("timeout", "30")).
    cbv iota beta. unfold parseKeyValue at 1. rewrite Hfind.
    assert (Hset : SetValue ext (Single s : Argument) "30"
                   = (Single (with_isSet (with_value s (VInt k 30)) true), Nil)).
    { unfold SetValue. cbn [base]. rewrite Hc, Hv. cbn [negb gotypes.SetValue].
      change (strconv.ParseInt "30" 64) with (30, @None strconv.NumErr).
      cbv iota. rewrite small_int_fits. reflexivity. }
    rewrite Hset. rewrite ParseFile_loop_cons.
    change (splitLine "unknown_key = x") with (Some ("unknown-key", "x")).
    cbv iota beta. unfold parseKeyValue, findOptionalArgument.
    cbn [optArgs with_optArgs].
    rewrite findOptionalArgument_loop_none; [reflexivity|].
    apply Forall_insert; [exact Hnone|].
    apply findOptionalArgument_lookup in Hfind.
    rewrite Forall_lookup in Hnone. exact (Hnone idx _ Hfind).
  - intros content line Hin Hsep. unfold ParseFile.
    eapply ParseFile_loop_misformated; eassumption.
Qed.

Lemma ParseFile_config_scenario_witness :
  ParseFile ext_none ex_timeout_parser [] config_content =
    (with_optArgs ex_timeout_parser
       [ex_Force;
        Single (with_isSet (with_value (base ex_Timeout) (VInt Int 30)) true)],
     ["Cannot found argument unknown-key"], Nil) /\
  exists this' log' bad,
    ParseFile ext_none ex_timeout_parser []
      ("timeout = 30" ++ String "010" "timeout 40")
    = (this', log', Err (MisformatedLine bad)).
Proof.
  split.
  - exact (proj1 (ParseFile_config_scenario ext_none ex_timeout_parser [])
             1%nat (base ex_Timeout) Int 0 eq_refl eq_refl eq_refl
             ltac:(repeat constructor)).
  - apply (proj2 (ParseFile_config_scenario ext_none ex_timeout_parser [])
             _ "timeout 40"); [|reflexivity].
    vm_compute. apply list_elem_of_In. simpl. auto.
Defined.

(** ** Schema derivation: nested structures and sequences *)

(** A field of struct kind ends the loop over the fields: the result of the
    recursive call is returned, whatever fields follow. *)
Lemma addStructArgument_returns_at_nested (ext : External)
    (this : ArgumentParser) (n : string) (tg : StructTag)
    (inner rest : list StructField) (val v : Value) :
  Field_ val 0 = Some v ->
  addStructArgument ext this (TStruct (Field n tg (TStruct inner) :: rest)) val
  = addStructArgument ext this (TStruct inner) v.
Proof. intros H. cbn [addStructArgument]. rewrite H. reflexivity. Qed.

(** C2 (the code at the failing input).  For the target
    [struct { Conn struct { Host string }; Port string }] derivation
    registers [Host] only: the field [Port], declared after the nested
    structure, is never visited. *)
Theorem nested_struct_drops_later_fields :
  NewArgumentParser ext_none ex_nested_target "prog" EmptyString EmptyString
  = (Some (with_optArgs (emptyParser "prog" EmptyString EmptyString)
             [Single (plainArg "Host" false true (VString EmptyString))]),
     Nil).
Proof. reflexivity. Qed.

(** Nothing can be appended to an array slot: [SliceBaseType] knows slice
    types only. *)
Lemma AppendValue_array (ext : External) (e : Type_) (l : list Value)
    (val : string) :
  gotypes.AppendValue ext (VArray e l) val
  = (VArray e l, Some CannotAppendNonSlice).
Proof. reflexivity. Qed.

(** The variant [addArgument] chooses for a field without subcommand tag
    depends on the kind [Array] alone. *)
Lemma addArgument_multi_iff_array (ext : External)
    (this this' : ArgumentParser) (f : StructField) (v : Value) :
  addArgument ext this f v = (this', Nil) ->
  exists arg : Argument,
    AddArgument this arg = (this', Nil) /\
    (IsSubcommand arg = false ->
     IsMulti arg = match KindOf (FieldType f) with
                   | KArray => true
                   | _ => false
                   end).
Proof.
  intros H. apply addArgument_Nil in H as (arg & HA & _ & _ & _ & _ & Hm).
  eauto.
Qed.

(** C3 (the code at the failing input).  The slice field
    [Tags []string `nargs:"+"`] is registered as a scalar argument, whose
    [SetValue] rejects every value since the slot is no scalar; only the
    array field [Pair [2]string] becomes a multi-valued argument, and a
    value supplied to it fails to be appended. *)
Theorem slice_field_is_registered_scalar :
  addArgument ext_none (emptyParser "prog" EmptyString EmptyString)
    ex_Tags_field (VSlice TString [])
    = (with_optArgs (emptyParser "prog" EmptyString EmptyString) [ex_Tags_arg],
       Nil) /\
  IsMulti ex_Tags_arg = false /\
  SetValue ext_none ex_Tags_arg "a"
    = (ex_Tags_arg, Err (UnsupportedType (TSlice TString))) /\
  addArgument ext_none (emptyParser "prog" EmptyString EmptyString)
    ex_Pair_field ex_Pair_value
    = (with_optArgs (emptyParser "prog" EmptyString EmptyString) [ex_Pair_arg],
       Nil) /\
  SetValue ext_none ex_Pair_arg "a" = (ex_Pair_arg, Err CannotAppendNonSlice).
Proof. repeat split; reflexivity. Qed.

(** * Further properties of the code *)

(** ** The coercion engine *)

Lemma wrapS_range (w x : Z) :
  0 < w -> - 2 ^ (w - 1) <= wrapS w x < 2 ^ (w - 1).
Proof.
  intros Hw. unfold wrapS.
  assert (H2 : 2 ^ w = 2 * 2 ^ (w - 1)).
  { rewrite <- Z.pow_succ_r by lia. f_equal. lia. }
  assert (0 < 2 ^ (w - 1)) by (apply Z.pow_pos_nonneg; lia).
  pose proof (Z.mod_pos_bound (x + 2 ^ (w - 1)) (2 ^ w) ltac:(lia)). lia.
Qed.

Lemma wrapU_range (w x : Z) : 0 <= w -> 0 <= wrapU w x < 2 ^ w.
Proof.
  intros Hw. unfold wrapU. apply Z.mod_pos_bound.
  apply Z.pow_pos_nonneg; lia.
Qed.

Lemma intBits_pos k : 0 < intBits k.
Proof. destruct k; reflexivity. Qed.

Lemma uintBits_pos k : 0 < uintBits k.
Proof. destruct k; reflexivity. Qed.

Lemma ParseValue_type (ext : External) (val : string) (tp : Type_) v :
  gotypes.ParseValue ext val tp = (v, None) -> TypeOf v = tp /\ inRange v.
Proof.
  unfold gotypes.ParseValue. destruct tp; try discriminate.
  - destruct (strconv.ParseBool val) as [b [e|]]; intros [= <-]; now split.
  - destruct (strconv.ParseInt val 64) as [n [e|]]; intros [= <-].
    split; [reflexivity|]. apply wrapS_range, intBits_pos.
  - destruct (strconv.ParseUint val 64) as [n [e|]]; intros [= <-].
    split; [reflexivity|]. apply wrapU_range.
    pose proof (uintBits_pos k). lia.
  - destruct (ParseFloat ext val) as [x [e|]]; intros [= <-]; now split.
  - intros [= <-]. now split.
Qed.

(** X1.  Assigning text to a slot of a supported scalar type stores exactly
    the value [ParseValue] computes for the slot's type, and fails with
    exactly the error [ParseValue] reports, leaving the slot as it was. *)
Theorem SetValue_agrees_with_ParseValue (ext : External) (slot : Value)
    (val : string) :
  isScalarType (TypeOf slot) = true ->
  gotypes.SetValue ext slot val =
  match gotypes.ParseValue ext val (TypeOf slot) with
  | (v, None) => (v, None)
  | (_, Some e) => (slot, Some e)
  end.
Proof.
  destruct slot; try discriminate; intros _; simpl.
  - destruct (strconv.ParseBool val) as [b' [e|]]; reflexivity.
  - destruct (strconv.ParseInt val 64) as [n' [e|]]; reflexivity.
  - destruct (strconv.ParseUint val 64) as [n' [e|]]; reflexivity.
  - destruct (ParseFloat ext val) as [x [e|]]; reflexivity.
  - reflexivity.
Qed.

Lemma SetValue_agrees_with_ParseValue_witness :
  gotypes.SetValue ext_none (VInt Int16 5) "-12" = (VInt Int16 (-12), None).
Proof.
  exact (SetValue_agrees_with_ParseValue ext_none (VInt Int16 5) "-12" eq_refl).
Defined.

(** X2.  An assignment never changes the dynamic type of the slot, whether
    it succeeds or fails, and after a successful one an integer slot holds
    a number within the range of its width. *)
Theorem SetValue_keeps_type_and_range (ext : External) (slot : Value)
    (val : string) :
  TypeOf (fst (gotypes.SetValue ext slot val)) = TypeOf slot /\
  (snd (gotypes.SetValue ext slot val) = None ->
   inRange (fst (gotypes.SetValue ext slot val))).
Proof.
  destruct slot; simpl; try (split; [reflexivity|discriminate]).
  - destruct (strconv.ParseBool val) as [b' [e|]]; simpl; split;
      try reflexivity; try discriminate; auto.
  - destruct (strconv.ParseInt val 64) as [n' [e|]]; simpl; split;
      try reflexivity; try discriminate.
    intros _. apply wrapS_range, intBits_pos.
  - destruct (strconv.ParseUint val 64) as [n' [e|]]; simpl; split;
      try reflexivity; try discriminate.
    intros _. apply wrapU_range. pose proof (uintBits_pos k). lia.
  - destruct (ParseFloat ext val) as [x [e|]]; simpl; split;
      try reflexivity; try discriminate; auto.
  - split; [reflexivity|auto].
Qed.

Lemma SetValue_keeps_type_and_range_witness :
  inRange (fst (gotypes.SetValue ext_none (VInt Int8 0) "200")).
Proof.
  exact (proj2 (SetValue_keeps_type_and_range ext_none (VInt Int8 0) "200")
           eq_refl).
Defined.

Lemma digit_not_sign (c : ascii) :
  strconv.isDigit c = true -> Ascii.eqb c "+" = false /\ Ascii.eqb c "-" = false.
Proof.
  intros H. split.
  - destruct (Ascii.eqb_spec c "+") as [->|]; [discriminate H|reflexivity].
  - destruct (Ascii.eqb_spec c "-") as [->|]; [discriminate H|reflexivity].
Qed.

Lemma decimalValue_nonneg (s : string) : allDigits s = true -> 0 <= decimalValue s.
Proof. intros H. apply (decimalFrom_ge s 0 H). lia. Qed.

(** [ParseInt] at 64 bits on decimal text, unsigned or with a minus sign. *)
Lemma ParseInt_decimal (d : string) :
  isDecimal d = true ->
  strconv.ParseInt d 64 =
    (if decimalValue d <? 2 ^ 63 then (decimalValue d, None)
     else (2 ^ 63 - 1, Some strconv.ErrRange)) /\
  strconv.ParseInt (String "-" d) 64 =
    (if decimalValue d <=? 2 ^ 63 then (- decimalValue d, None)
     else (- 2 ^ 63, Some strconv.ErrRange)).
Proof.
  intros Hd. pose proof (ParseUint_decimal d Hd) as HU.
  unfold isDecimal in Hd. apply andb_prop in Hd as [Hne Hall].
  pose proof (decimalValue_nonneg d Hall) as Hpos.
  destruct d as [|c s]; [discriminate|].
  simpl in Hall. apply andb_prop in Hall as [Hc Hs].
  destruct (digit_not_sign c Hc) as [Hplus Hminus].
  split.
  - unfold strconv.ParseInt. rewrite Hplus, Hminus. cbn [orb negb andb].
    rewrite HU.
    destruct (Z.ltb_spec (decimalValue (String c s)) (2 ^ 64)).
    + change (2 ^ (64 - 1)) with (2 ^ 63).
      destruct (Z.leb_spec (2 ^ 63) (decimalValue (String c s))),
        (Z.ltb_spec (decimalValue (String c s)) (2 ^ 63));
        try lia; reflexivity.
    + destruct (Z.ltb_spec (decimalValue (String c s)) (2 ^ 63)); [lia|].
      reflexivity.
  - unfold strconv.ParseInt.
    change (Ascii.eqb "-" "-") with true. change (Ascii.eqb "-" "+") with false.
    cbn [orb negb andb]. rewrite HU.
    destruct (Z.ltb_spec (decimalValue (String c s)) (2 ^ 64)).
    + change (2 ^ (64 - 1)) with (2 ^ 63).
      destruct (Z.ltb_spec (2 ^ 63) (decimalValue (String c s))),
        (Z.leb_spec (decimalValue (String c s)) (2 ^ 63));
        try lia; reflexivity.
    + destruct (Z.leb_spec (decimalValue (String c s)) (2 ^ 63)); [lia|].
      reflexivity.
Qed.

(** X3.  Decimal text, with or without a minus sign, assigned to a signed
    slot of any width is parsed at 64 bits: within the range of [int64]
    the assignment succeeds and stores the number wrapped to the width of
    the slot (two's complement, no range check at that width); outside it
    the assignment fails with a range error and the slot is unchanged. *)
Theorem SetValue_signed_wraps (ext : External) (k : IntKind) (n : Z) (d : string) :
  isDecimal d = true ->
  gotypes.SetValue ext (VInt k n) d =
    (if decimalValue d <? 2 ^ 63
     then (VInt k (wrapS (intBits k) (decimalValue d)), None)
     else (VInt k n, Some (NumError "ParseInt" d strconv.ErrRange))) /\
  gotypes.SetValue ext (VInt k n) (String "-" d) =
    (if decimalValue d <=? 2 ^ 63
     then (VInt k (wrapS (intBits k) (- decimalValue d)), None)
     else (VInt k n, Some (NumError "ParseInt" (String "-" d) strconv.ErrRange))).
Proof.
  intros Hd. destruct (ParseInt_decimal d Hd) as [H1 H2].
  unfold gotypes.SetValue. rewrite H1, H2.
  destruct (_ <? _), (_ <=? _); split; reflexivity.
Qed.

Lemma SetValue_signed_wraps_witness :
  gotypes.SetValue ext_none (VInt Int8 0) "200" = (VInt Int8 (-56), None) /\
  gotypes.SetValue ext_none (VInt Int8 0) "-129" = (VInt Int8 127, None).
Proof.
  split.
  - exact (proj1 (SetValue_signed_wraps ext_none Int8 0 "200" eq_refl)).
  - exact (proj2 (SetValue_signed_wraps ext_none Int8 0 "129" eq_refl)).
Defined.

Lemma ParseUint_loop_ok_digits (s : string) : forall maxVal n r,
  strconv.ParseUint_loop s maxVal n = (r, None) -> allDigits s = true.
Proof.
  induction s as [|c s IH]; intros maxVal n r H; [reflexivity|].
  simpl in H |- *. destruct (strconv.isDigit c); [|discriminate]. simpl in H |- *.
  destruct (_ <=? n); [discriminate|].
  destruct (_ || _); [discriminate|]. eapply IH, H.
Qed.

(** X4.  An assignment to an unsigned slot succeeds exactly for non-empty
    strings of decimal digits whose value fits 64 bits: a sign, a blank, a
    hexadecimal prefix or the empty text make it fail, and a failed
    assignment leaves the slot as it was. *)
Theorem SetValue_unsigned_accepts_digits_only (ext : External) (k : UintKind)
    (n : Z) (s : string) :
  (snd (gotypes.SetValue ext (VUint k n) s) = None <->
   isDecimal s = true /\ decimalValue s < 2 ^ 64) /\
  (snd (gotypes.SetValue ext (VUint k n) s) <> None ->
   fst (gotypes.SetValue ext (VUint k n) s) = VUint k n).
Proof.
  split.
  - split.
    + intros H. unfold gotypes.SetValue in H.
      destruct (strconv.ParseUint s 64) as [r [e|]] eqn:E; [discriminate|].
      assert (Hd : isDecimal s = true).
      { unfold isDecimal. unfold strconv.ParseUint in E.
        destruct s as [|c s]; [discriminate|].
        apply ParseUint_loop_ok_digits in E. now rewrite E. }
      split; [exact Hd|].
      rewrite (ParseUint_decimal s Hd) in E.
      destruct (Z.ltb_spec (decimalValue s) (2 ^ 64)); [assumption|discriminate].
    + intros [Hd Hv]. unfold gotypes.SetValue.
      rewrite (ParseUint_decimal s Hd).
      destruct (Z.ltb_spec (decimalValue s) (2 ^ 64)); [reflexivity|lia].
  - unfold gotypes.SetValue.
    destruct (strconv.ParseUint s 64) as [r [e|]]; simpl; [reflexivity|].
    intros H. now contradiction H.
Qed.

Lemma SetValue_unsigned_accepts_digits_only_witness :
  fst (gotypes.SetValue ext_none (VUint Uint16 9) "+5") = VUint Uint16 9 /\
  snd (gotypes.SetValue ext_none (VUint Uint16 9) "65") = None.
Proof.
  split.
  - apply (proj2 (SetValue_unsigned_accepts_digits_only ext_none Uint16 9 "+5")).
    discriminate.
  - apply (proj1 (SetValue_unsigned_accepts_digits_only ext_none Uint16 9 "65")).
    split; [reflexivity|]. vm_compute. reflexivity.
Defined.

Lemma AppendValue_slice (ext : External) (e : Type_) (l : list Value)
    (val : string) :
  isScalarType e = true ->
  gotypes.AppendValue ext (VSlice e l) val =
  match gotypes.ParseValue ext val e with
  | (_, Some er) => (VSlice e l, Some er)
  | (x, None) => (VSlice e (l ++ [x]), None)
  end.
Proof.
  intros He. unfold gotypes.AppendValue. cbn [TypeOf].
  destruct e; try discriminate; reflexivity.
Qed.

Lemma AppendValues_all_parse (ext : External) (e : Type_) (vals : list string) :
  isScalarType e = true ->
  Forall (fun val => snd (gotypes.ParseValue ext val e) = None) vals ->
  forall l,
  gotypes.AppendValues ext (VSlice e l) vals
  = (VSlice e (l ++ map (fun val => fst (gotypes.ParseValue ext val e)) vals),
     None).
Proof.
  intros He Hall. induction Hall as [|val vals Hv _ IH]; intros l.
  - simpl. now rewrite app_nil_r.
  - cbn [gotypes.AppendValues map]. rewrite (AppendValue_slice ext e l val He).
    destruct (gotypes.ParseValue ext val e) as [x [er|]]; [discriminate|].
    rewrite IH. simpl. now rewrite <- app_assoc.
Qed.

(** X5.  [AppendValues] on a slice of a supported element type appends the
    parsed values in the order given, after the elements already there; at
    the first text that does not parse it stops with that error, the
    values before it staying appended and the ones after it never read. *)
Theorem AppendValues_in_order_until_error (ext : External) (e : Type_)
    (l : list Value) (good : list string) :
  isScalarType e = true ->
  Forall (fun val => snd (gotypes.ParseValue ext val e) = None) good ->
  gotypes.AppendValues ext (VSlice e l) good
    = (VSlice e (l ++ map (fun val => fst (gotypes.ParseValue ext val e)) good),
       None) /\
  (forall (bad : string) (rest : list string) er,
     snd (gotypes.ParseValue ext bad e) = Some er ->
     gotypes.AppendValues ext (VSlice e l) (good ++ bad :: rest)
       = (VSlice e (l ++ map (fun val => fst (gotypes.ParseValue ext val e)) good),
          Some er)).
Proof.
  intros He Hall. split; [now apply AppendValues_all_parse|].
  intros bad rest er Hbad. revert l.
  induction Hall as [|val vals Hv _ IH]; intros l.
  - cbn [app map gotypes.AppendValues]. rewrite (AppendValue_slice ext e l bad He).
    destruct (gotypes.ParseValue ext bad e) as [x [er'|]]; [|discriminate].
    simpl in Hbad. injection Hbad as ->. now rewrite app_nil_r.
  - cbn [app map gotypes.AppendValues]. rewrite (AppendValue_slice ext e l val He).
    destruct (gotypes.ParseValue ext val e) as [x [er'|]]; [discriminate|].
    rewrite IH. simpl. now rewrite <- app_assoc.
Qed.

Lemma AppendValues_in_order_until_error_witness :
  gotypes.AppendValues ext_none (VSlice (TInt Int) [VInt Int 1])
    (["2"; "3"] ++ "x" :: ["4"])
  = (VSlice (TInt Int) [VInt Int 1; VInt Int 2; VInt Int 3],
     Some (NumError "ParseInt" "x" strconv.ErrSyntax)).
Proof.
  refine (proj2 (AppendValues_in_order_until_error ext_none (TInt Int)
                   [VInt Int 1] ["2"; "3"] eq_refl _) "x" ["4"] _ eq_refl).
  repeat constructor.
Defined.

Lemma AppendValue_keeps (ext : External) (value : Value) (val : string) :
  TypeOf (fst (gotypes.AppendValue ext value val)) = TypeOf value /\
  (homogeneous value -> homogeneous (fst (gotypes.AppendValue ext value val))).
Proof.
  unfold gotypes.AppendValue.
  destruct (gotypes.SliceBaseType (TypeOf value)) as [tp|] eqn:Hb;
    [|split; [reflexivity|auto]].
  destruct (gotypes.ParseValue ext val tp) as [x [er|]] eqn:Hp;
    [split; [reflexivity|auto]|].
  destruct value; try discriminate. simpl.
  split; [reflexivity|]. intros Hh.
  apply Forall_app. split; [exact Hh|]. constructor; [|constructor].
  apply ParseValue_type in Hp as [Ht _].
  cbn [TypeOf] in Hb. destruct elem; try discriminate;
    injection Hb as <-; exact Ht.
Qed.

(** X6.  Appending, one value or several, whether it succeeds or fails,
    keeps the type of the slot, and keeps a slice homogeneous: every
    element it adds has the element type of the slice. *)
Theorem AppendValues_keeps_type_and_homogeneity (ext : External)
    (vals : list string) (value : Value) :
  TypeOf (fst (gotypes.AppendValues ext value vals)) = TypeOf value /\
  (homogeneous value ->
   homogeneous (fst (gotypes.AppendValues ext value vals))).
Proof.
  revert value. induction vals as [|val vals IH]; intros value;
    [split; [reflexivity|auto]|].
  cbn [gotypes.AppendValues].
  pose proof (AppendValue_keeps ext value val) as [Ht Hh].
  destruct (gotypes.AppendValue ext value val) as [value' [er|]];
    simpl in Ht, Hh |- *; [split; assumption|].
  destruct (IH value') as [Ht' Hh']. split; [congruence|auto].
Qed.

Lemma AppendValues_keeps_type_and_homogeneity_witness :
  homogeneous
    (fst (gotypes.AppendValues ext_none (VSlice (TUint Uint8) []) ["7"; "300"])).
Proof.
  apply (proj2 (AppendValues_keeps_type_and_homogeneity ext_none ["7"; "300"]
                  (VSlice (TUint Uint8) []))).
  constructor.
Defined.

(** ** The argument model *)

Lemma InChoices_spec (s : SingleArgument) (val : string) :
  InChoices s val = true <-> choices s = [] \/ val ∈ choices s.
Proof.
  unfold InChoices. destruct (choices s) as [|c cs].
  - simpl. split; auto.
  - change ((0 <? length (c :: cs))%nat) with true. cbv iota. split.
    + intros H. right. apply existsb_exists in H as (x & Hin & Hx).
      apply String.eqb_eq in Hx as ->. now apply list_elem_of_In.
    + intros [H|H]; [discriminate|].
      apply existsb_exists. exists val.
      split; [now apply list_elem_of_In|apply String.eqb_refl].
Qed.

(** X7.  With a non-empty choice set, [SetValue] of a text outside the set
    fails with the unknown-argument error and leaves the argument, slot
    included, exactly as it was, for each of the three kinds of argument.
    A text inside the set, or any text when the set is empty, goes to the
    coercion engine (append for a multi-valued argument, assign otherwise):
    on success the slot holds the coerced value and the argument counts as
    supplied; on failure the argument is unchanged. *)
Theorem SetValue_enforces_choices (ext : External) (a : Argument) (val : string) :
  (choices (base a) <> [] -> val ∉ choices (base a) ->
   exists tok, SetValue ext a val
               = (a, Err (UnknownArgumentFor val tok (MetaVar a)))) /\
  (choices (base a) = [] \/ val ∈ choices (base a) ->
   SetValue ext a val =
   match (if IsMulti a
          then gotypes.AppendValue ext (value (base a)) val
          else gotypes.SetValue ext (value (base a)) val) with
   | (v, None) => (with_base a (with_isSet (with_value (base a) v) true), Nil)
   | (_, Some e) => (a, Err e)
   end).
Proof.
  split.
  - intros Hne Hnot.
    assert (Hc : InChoices (base a) val = false).
    { destruct (InChoices (base a) val) eqn:E; [|reflexivity].
      apply InChoices_spec in E as [E|E]; contradiction. }
    unfold SetValue. destruct a; cbn [base] in *; rewrite Hc; simpl; eauto.
  - intros Hin. apply InChoices_spec in Hin.
    unfold SetValue, IsMulti. destruct a; cbn [base] in *; rewrite Hin; simpl.
    + destruct (gotypes.SetValue ext (value s) val) as [v [e|]]; reflexivity.
    + destruct (gotypes.AppendValue ext (value s) val) as [v [e|]]; reflexivity.
    + destruct (gotypes.SetValue ext (value s) val) as [v [e|]]; reflexivity.
Qed.

Lemma SetValue_enforces_choices_witness :
  exists tok, SetValue ext_none ex_TAGS "zzz"
              = (ex_TAGS, Err (UnknownArgumentFor "zzz" tok (MetaVar ex_TAGS))).
Proof.
  apply (proj1 (SetValue_enforces_choices ext_none ex_TAGS "zzz"));
    [discriminate|].
  intros H. apply list_elem_of_In in H. simpl in H.
  destruct H as [H|[H|[]]]; discriminate.
Defined.

(** X8.  The flag action sets a boolean slot relative to its default (the
    negation of the default, or [true] without default) and marks the
    argument supplied; it is no toggle of the current value: repeating it
    changes nothing more.  On a slot that is not boolean it does nothing. *)
Theorem DoAction_sets_once (a : Argument) :
  DoAction (fst (DoAction a)) = DoAction a /\
  (forall b, value (base a) = VBool b -> useDefault (base a) = false ->
     value (base (fst (DoAction a))) = VBool true /\
     isSet (base (fst (DoAction a))) = true) /\
  (forall b d, value (base a) = VBool b -> useDefault (base a) = true ->
     defValue (base a) = Some (VBool d) ->
     value (base (fst (DoAction a))) = VBool (negb d) /\
     isSet (base (fst (DoAction a))) = true) /\
  (TypeOf (value (base a)) <> TBool -> DoAction a = (a, Nil)).
Proof.
  split; [|split; [|split]].
  - unfold DoAction.
    destruct a as [s|s lo hi|s m]; cbn [base];
      destruct s as [tk st mv o p h c u d v i pp]; cbn [value useDefault defValue];
      destruct v; try reflexivity;
      destruct u; try reflexivity;
      destruct d as [[]|]; reflexivity.
  - intros b Hv Hu. unfold DoAction. rewrite Hv, Hu.
    destruct a; split; reflexivity.
  - intros b d Hv Hu Hd. unfold DoAction. rewrite Hv, Hu, Hd.
    destruct a; split; reflexivity.
  - intros Hn. unfold DoAction.
    destruct (value (base a)); try reflexivity. now contradiction Hn.
Qed.

Lemma DoAction_sets_once_witness :
  value (base (fst (DoAction ex_Verbose))) = VBool true /\
  isSet (base (fst (DoAction ex_Verbose))) = true.
Proof.
  exact (proj1 (proj2 (DoAction_sets_once ex_Verbose)) false eq_refl eq_refl).
Defined.

(** Induction over types, with the hypothesis for every field of a struct. *)
Lemma Type_induction (P : Type_ -> Prop) :
  P TBool -> (forall k, P (TInt k)) -> (forall k, P (TUint k)) ->
  (forall k, P (TFloat k)) -> P TString ->
  (forall e, P e -> P (TSlice e)) ->
  (forall n e, P e -> P (TArray n e)) ->
  (forall fields, Forall (fun f => P (FieldType f)) fields -> P (TStruct fields)) ->
  (forall n, P (TOther n)) ->
  forall t, P t.
Proof.
  intros Hb Hi Hu Hf Hs Hsl Har Hst Ho.
  fix IH 1. intros [| | | | |e|n e|fields|n];
    [exact Hb|apply Hi|apply Hu|apply Hf|exact Hs|apply Hsl, IH
    |apply Har, IH| |apply Ho].
  apply Hst. induction fields as [|[n tg ty] fields IHf]; constructor.
  - apply IH.
  - exact IHf.
Qed.

Lemma Type_eqb_refl (t : Type_) : Type_eqb t t = true.
Proof.
  induction t as [|k|k|k| |e IH|n e IH|fields IH|n] using Type_induction;
    simpl; try reflexivity; try (destruct k; reflexivity);
    try (apply String.eqb_refl); try assumption.
  - now rewrite Nat.eqb_refl, IH.
  - induction IH as [|[n tg ty] fields Hty _ IHf]; [reflexivity|].
    simpl in Hty. rewrite String.eqb_refl, Hty, IHf.
    rewrite bool_decide_true by reflexivity. reflexivity.
Qed.

(** X9.  Validation of a scalar argument never overwrites a supplied
    value; it copies a default of the slot's type into a slot that was not
    supplied; and it fails, naming the token and changing nothing, exactly
    when the argument is required, was not supplied and has no default. *)
Theorem Validate_defaults (a : Argument) :
  IsMulti a = false ->
  (isSet (base a) = true -> Validate a = (a, Nil)) /\
  (forall d, isSet (base a) = false -> useDefault (base a) = true ->
     defValue (base a) = Some d -> TypeOf d = TypeOf (value (base a)) ->
     Validate a = (with_base a (with_value (base a) d), Nil)) /\
  (snd (Validate a) = Err (NonOptionalNotSet (token (base a))) <->
   optional (base a) = false /\ isSet (base a) = false /\
   useDefault (base a) = false) /\
  (forall e, snd (Validate a) = Err e -> fst (Validate a) = a).
Proof.
  intros Hm.
  assert (HV : Validate a
               = (with_base a (fst (SingleArgument_Validate (base a))),
                  snd (SingleArgument_Validate (base a)))).
  { destruct a; try discriminate; cbn [Validate base];
      destruct (SingleArgument_Validate s); reflexivity. }
  assert (Hid : with_base a (base a) = a) by (now destruct a).
  rewrite HV. unfold SingleArgument_Validate. cbn [fst snd].
  destruct (base a) as [tk st mv o p h c u dv v i pp] eqn:Hb.
  cbn [optional isSet useDefault defValue value token].
  split; [|split; [|split]].
  - intros ->. rewrite !andb_false_r. simpl. now rewrite Hid.
  - intros d -> -> -> Ht. rewrite andb_false_r. simpl.
    unfold Set_. rewrite Ht, Type_eqb_refl. reflexivity.
  - destruct o, i, u; simpl; try (split; [discriminate|intros (?&?&?); discriminate]).
    + destruct (Set_ v dv); simpl; split; try discriminate; intros (?&?&?); discriminate.
    + destruct (Set_ v dv); simpl; split; try discriminate; intros (?&?&?); discriminate.
    + split; auto.
  - intros e. destruct o, i, u; simpl; try discriminate;
      try (destruct (Set_ v dv); simpl; discriminate).
    intros _. exact Hid.
Qed.

Lemma Validate_defaults_witness :
  Validate ex_Level
  = (with_base ex_Level (with_value (base ex_Level) (VInt Int 3)), Nil).
Proof.
  exact (proj1 (proj2 (Validate_defaults ex_Level eq_refl))
           (VInt Int 3) eq_refl eq_refl eq_refl eq_refl).
Defined.

(** ** Token derivation *)

Lemma splitCamelString_cases (str : string) :
  splitCamelString str
  = if String.eqb (strings.ToUpper str) str then str else hyphenate str.
Proof.
  unfold splitCamelString. destruct (String.eqb _ _); [reflexivity|].
  now rewrite splitCamel_loop_spec.
Qed.

Lemma byteAt_app_r (pre t : string) (i : nat) :
  byteAt (pre ++ t) (String.length pre + i) = byteAt t i.
Proof.
  induction pre as [|c pre IH]; [reflexivity|].
  rewrite string_app_cons. exact IH.
Qed.

(** Writing out the bytes of a string one index at a time gives it back. *)
Lemma bytes_foldr (t : string) : forall pre : string,
  foldr (fun i acc => String (byteAt (pre ++ t) i) EmptyString ++ acc)
        EmptyString (seq (String.length pre) (String.length t))
  = t.
Proof.
  induction t as [|c t IH]; intros pre; [reflexivity|].
  cbn [String.length seq foldr fold_right].
  pose proof (byteAt_app_r pre (String c t) 0) as H0.
  rewrite Nat.add_0_r in H0. rewrite H0. cbn [byteAt String.get].
  rewrite string_app_cons, string_app_nil_l. f_equal.
  specialize (IH (pre ++ String c EmptyString)).
  rewrite string_app_assoc, string_app_cons, string_app_nil_l in IH.
  rewrite string_length_app in IH. simpl in IH.
  replace (String.length pre + 1)%nat with (S (String.length pre)) in IH by lia.
  exact IH.
Qed.

Lemma allChars_byteAt (p : ascii -> bool) (s : string) : forall i : nat,
  allChars p s = true -> (i < String.length s)%nat -> p (byteAt s i) = true.
Proof.
  induction s as [|c s IH]; intros i H Hi; [simpl in Hi; lia|].
  simpl in H. apply andb_prop in H as [Hc Hs].
  destruct i as [|i]; [exact Hc|]. apply (IH i Hs). simpl in Hi. lia.
Qed.

Lemma foldr_ext_seq (f g : nat -> string -> string) (n : nat) : forall i0 : nat,
  (forall i acc, (i0 <= i < i0 + n)%nat -> f i acc = g i acc) ->
  foldr f EmptyString (seq i0 n) = foldr g EmptyString (seq i0 n).
Proof.
  induction n as [|n IH]; intros i0 H; [reflexivity|].
  cbn [seq foldr fold_right]. rewrite H by lia. f_equal.
  apply IH. intros i acc Hi. apply H. lia.
Qed.

Lemma hyphenate_fixed (s : string) :
  allChars lowerHyphenated s = true -> hyphenate s = s.
Proof.
  intros H. unfold hyphenate.
  rewrite (foldr_ext_seq _
             (fun i acc => String (byteAt (EmptyString ++ s) i) EmptyString ++ acc)).
  - exact (bytes_foldr s EmptyString).
  - intros i acc Hi. f_equal. rewrite string_app_nil_l.
    pose proof (allChars_byteAt _ s i H ltac:(lia)) as Hp.
    unfold lowerHyphenated in Hp. apply andb_prop in Hp as [Hu Hun].
    apply negb_true_iff in Hu, Hun.
    unfold piece, caseBoundary, lowerOrHyphen. rewrite Hu, Hun.
    rewrite andb_false_r. reflexivity.
Qed.

(** X10.  A token that is already in lower case with hyphens (no
    upper-case letter, no underscore) is left as it is by the derivation,
    so an explicit [token] tag written that way is used verbatim; and the
    derivation is idempotent on every string. *)
Theorem splitCamelString_idempotent (str : string) :
  (allChars lowerHyphenated str = true -> splitCamelString str = str) /\
  splitCamelString (splitCamelString str) = splitCamelString str.
Proof.
  assert (Hfix : forall s, allChars lowerHyphenated s = true ->
                           splitCamelString s = s).
  { intros s H. rewrite splitCamelString_cases.
    destruct (String.eqb _ _); [reflexivity|]. now apply hyphenate_fixed. }
  split; [apply Hfix|].
  rewrite (splitCamelString_cases str).
  destruct (String.eqb (strings.ToUpper str) str) eqn:E.
  - rewrite splitCamelString_cases, E. reflexivity.
  - apply Hfix, hyphenate_lower.
Qed.

Lemma splitCamelString_idempotent_witness :
  splitCamelString "auth-url" = "auth-url".
Proof.
  exact (proj1 (splitCamelString_idempotent "auth-url") eq_refl).
Defined.

(** ** Schema derivation and registration *)

(** [addArgument] changes the parser through [AddArgument] only. *)
Lemma addArgument_via_AddArgument (ext : External) (this this' : ArgumentParser)
    (f : StructField) (v : Value) st :
  addArgument ext this f v = (this', st) ->
  this' = this \/ exists arg : Argument, AddArgument this arg = (this', st).
Proof.
  unfold addArgument. intros H.
  destruct (if (0 <? String.length (Get (Tag f) TAG_DEFAULT))%nat then _ else _)
    as [defval|]; [|injection H as <- _; now left].
  cbv zeta in H.
  destruct (_ && _ && _) in H; [injection H as <- _; now left|].
  destruct (if negb _ then _ else _) as [defval_t|e] in H;
    [|injection H as <- _; now left].
  match type of H with
  | (if ?sub then _ else _) = _ => destruct sub
  end; [right; eauto|].
  destruct (KindOf (FieldType f)); try (right; eauto; fail).
  destruct (String.eqb _ "*"); [right; eauto|].
  destruct (String.eqb _ "?"); [right; eauto|].
  destruct (String.eqb _ "+"); [right; eauto|].
  destruct (strconv.ParseInt _ 64) as [mn [e|]];
    [injection H as <- _; now left|right; eauto].
Qed.

(** Whatever [AddArgument] preserves, derivation preserves. *)
Lemma addStructArgument_invariant (ext : External) (Q : ArgumentParser -> Prop) :
  (forall (this this' : ArgumentParser) (arg : Argument) st,
     Q this -> AddArgument this arg = (this', st) -> Q this') ->
  forall (tp : Type_) (this this' : ArgumentParser) (val : Value) st,
  Q this -> addStructArgument ext this tp val = (this', st) -> Q this'.
Proof.
  intros HQ.
  assert (Hadd : forall this this' f v st,
            Q this -> addArgument ext this f v = (this', st) -> Q this').
  { intros this this' f v st Hq H.
    apply addArgument_via_AddArgument in H as [->|[arg H]]; [exact Hq|].
    exact (HQ _ _ _ _ Hq H). }
  intros tp.
  induction tp as [|k|k|k| |e IH|n e IH|fields IH|n] using Type_induction;
    intros this this' val st Hinv H;
    try (injection H as <- _; exact Hinv).
  cbn [addStructArgument] in H.
  revert this Hinv H. generalize 0%nat.
  induction IH as [|[n tg ty] fields Hty _ IHf]; intros i this Hinv H.
  - injection H as <- _. exact Hinv.
  - destruct (Field_ val i) as [v|]; [|injection H as <- _; exact Hinv].
    simpl in Hty.
    destruct ty;
      try (destruct (addArgument ext this _ v) as [this1 st1] eqn:Hr;
           pose proof (Hadd _ _ _ _ _ Hinv Hr) as Hinv1;
           destruct st1;
           [exact (IHf (S i) this1 Hinv1 H)
           |injection H as <- _; exact Hinv1
           |injection H as <- _; exact Hinv1]).
    exact (Hty _ _ _ _ Hinv H).
Qed.

Lemma AddArgument_prog (this this' : ArgumentParser) (arg : Argument) st :
  AddArgument this arg = (this', st) -> prog this' = prog this.
Proof.
  unfold AddArgument. intros H.
  repeat match type of H with
         | (if ?b then _ else _) = _ => destruct b
         | match ?x with _ => _ end = _ => destruct x
         end; injection H as <- _; reflexivity.
Qed.

Lemma NewArgumentParser_Some (ext : External) (target : Value)
    (prog0 desc epilog : string) (parser : ArgumentParser) st :
  NewArgumentParser ext target prog0 desc epilog = (Some parser, st) ->
  PositionalInvariant (posArgs parser) /\ prog parser = prog0.
Proof.
  unfold NewArgumentParser.
  destruct (addStructArgument _ _ _ _) as [p st'] eqn:E.
  destruct st'; intros [= <- _]. split.
  - refine (addStructArgument_invariant ext
              (fun p => PositionalInvariant (posArgs p)) _ _ _ _ _ _ _ E).
    + intros this this' arg st0. apply AddArgument_preserves.
    + apply PositionalInvariant_nil.
  - refine (addStructArgument_invariant ext (fun p => prog p = prog0)
              _ _ _ _ _ _ _ E); [|reflexivity].
    intros this this' arg st0 Hq H. rewrite (AddArgument_prog _ _ _ _ H).
    exact Hq.
Qed.

(** X12.  Every parser that [NewArgumentParser] returns satisfies the
    invariant of the positional sequence and carries the program name it
    was given: derivation changes the parser through [AddArgument] only. *)
Theorem NewArgumentParser_invariant (ext : External) (target : Value)
    (prog0 desc epilog : string) (parser : ArgumentParser) st :
  NewArgumentParser ext target prog0 desc epilog = (Some parser, st) ->
  PositionalInvariant (posArgs parser) /\ prog parser = prog0.
Proof. apply NewArgumentParser_Some. Qed.

Lemma NewArgumentParser_invariant_witness :
  PositionalInvariant (posArgs ex_cli_parser).
Proof.
  exact (proj1 (NewArgumentParser_invariant ext_none ex_cli_target "prog"
                  EmptyString EmptyString ex_cli_parser Nil eq_refl)).
Defined.

(** X13.  Registering a command makes it selectable: after a successful
    [AddSubParser] of [command], storing [command] in the (text) slot of
    the argument succeeds and [GetSubParser] returns the parser just
    created; the commands registered before stay selectable with their
    own parsers; the new parser is named after the owning program and the
    command, and satisfies the positional invariant. *)
Theorem AddSubParser_registers (ext : External) (s : SingleArgument)
    (subs : gmap string ArgumentParser) (target : Value)
    (command desc : string) (a' : Argument) (parser : ArgumentParser) :
  AddSubParser ext s subs target command desc = (a', Some parser, Nil) ->
  TypeOf (value s) = TString ->
  (exists a'', SetValue ext a' command = (a'', Nil) /\
               GetSubParser a'' = Some parser) /\
  (forall other p', other <> command -> other ∈ choices s ->
     subs !! other = Some p' ->
     exists a'', SetValue ext a' other = (a'', Nil) /\
                 GetSubParser a'' = Some p') /\
  prog parser = parser_prog s ++ " " ++ command /\
  PositionalInvariant (posArgs parser).
Proof.
  unfold AddSubParser. intros H Ht.
  destruct (NewArgumentParser ext target _ desc EmptyString)
    as [[p|] st] eqn:E; [|destruct st; discriminate].
  destruct st; try discriminate. injection H as <- <-.
  apply NewArgumentParser_Some in E as [Hinv Hprog].
  assert (Ht' : TypeOf (value (with_choices s (choices s ++ [command]))) = TString)
    by exact Ht.
  split; [|split; [|split]]; [| |exact Hprog|exact Hinv].
  - eexists. split.
    + apply SetValue_subcommand; [exact Ht'|].
      apply InChoices_spec. right. cbn [with_choices choices].
      apply elem_of_app. right. apply list_elem_of_singleton. reflexivity.
    + cbn [GetSubParser selected with_isSet with_value value String_].
      apply lookup_insert_eq.
  - intros other p' Hne Hin Hsub. eexists. split.
    + apply SetValue_subcommand; [exact Ht'|].
      apply InChoices_spec. right. cbn [with_choices choices].
      apply elem_of_app. now left.
    + cbn [GetSubParser selected with_isSet with_value value String_].
      rewrite lookup_insert_ne by congruence. exact Hsub.
Qed.

Lemma AddSubParser_registers_witness :
  prog ex_run_parser = "prog run" /\
  exists a'', SetValue ext_none
                (Subcommand (with_choices ex_SUBCMD_empty ["run"])
                   {[ "run" := ex_run_parser ]}) "run" = (a'', Nil) /\
              GetSubParser a'' = Some ex_run_parser.
Proof.
  pose proof (AddSubParser_registers ext_none ex_SUBCMD_empty ∅ ex_cli_target
                "run" "runs it" _ ex_run_parser eq_refl eq_refl)
    as (H1 & _ & H3 & _).
  split; [exact H3|exact H1].
Defined.

(** X14.  Under the positional invariant, [GetSubcommand] returns the
    subcommand argument of the parser whenever the positional sequence
    contains one, and nothing otherwise: a subcommand can only be last. *)
Theorem GetSubcommand_finds (this : ArgumentParser) (a : Argument) :
  PositionalInvariant (posArgs this) ->
  (GetSubcommand this = Some a <->
   a ∈ posArgs this /\ IsSubcommand a = true).
Proof.
  intros [Htrail _]. unfold GetSubcommand. split.
  - destruct (last (posArgs this)) as [x|] eqn:Hl; [|discriminate].
    destruct (IsSubcommand x) eqn:Hs; [|discriminate].
    intros [= <-]. split; [|exact Hs].
    rewrite last_lookup in Hl. eapply list_elem_of_lookup_2, Hl.
  - intros [Hin Hs]. apply list_elem_of_lookup in Hin as [i Hi].
    assert (Hend : S i = length (posArgs this)).
    { apply (Htrail i a Hi). rewrite Hs. apply orb_true_r. }
    rewrite last_lookup. replace (pred (length (posArgs this))) with i by lia.
    rewrite Hi, Hs. reflexivity.
Qed.

Lemma GetSubcommand_finds_witness :
  GetSubcommand ex_command_parser = Some (Subcommand ex_SUBCMD_base ex_registry).
Proof.
  apply (GetSubcommand_finds ex_command_parser).
  - split.
    + intros [|i] a Hi _; simpl in Hi; [reflexivity|discriminate].
    + intros i [|j] a b Hij Hi Hj; simpl in Hj; [lia|discriminate].
  - split; [|reflexivity].
    apply list_elem_of_In. simpl. auto.
Defined.

(** ** Lookup of optional arguments *)

Lemma findOptionalArgument_loop_keep (args : list Argument) (t : string) :
  forall (i0 : nat) m,
  Forall (fun a => matchesToken a t = false) args ->
  findOptionalArgument_loop args t i0 (Some m) = Some m.
Proof.
  induction args as [|a args IH]; intros i0 m H; [reflexivity|].
  apply Forall_cons in H as [Ha H]. simpl.
  unfold matchesToken in Ha. rewrite Ha. apply IH, H.
Qed.

Lemma findOptionalArgument_loop_unique (args : list Argument) (t : string) :
  forall (i0 k : nat) a,
  args !! k = Some a -> matchesToken a t = true ->
  (forall (j : nat) b, args !! j = Some b -> matchesToken b t = true -> j = k) ->
  findOptionalArgument_loop args t i0 None = Some ((i0 + k)%nat, a).
Proof.
  induction args as [|x args IH]; intros i0 k a Hk Ha Huniq; [discriminate|].
  simpl. destruct k as [|k]; simpl in Hk.
  - injection Hk as ->. unfold matchesToken in Ha. rewrite Ha.
    rewrite Nat.add_0_r. apply findOptionalArgument_loop_keep.
    apply Forall_lookup. intros j b Hj.
    destruct (matchesToken b t) eqn:Hb; [|reflexivity].
    specialize (Huniq (S j) b Hj Hb). discriminate.
  - destruct (_ || _) eqn:Hx.
    + specialize (Huniq 0%nat x eq_refl Hx). discriminate.
    + rewrite (IH (S i0) k a Hk Ha).
      * f_equal. f_equal. lia.
      * intros j b Hj Hb. specialize (Huniq (S j) b Hj Hb). lia.
Qed.

Lemma findOptionalArgument_loop_matches (args : list Argument) (t : string) :
  forall (i0 : nat) acc (idx : nat) a,
  findOptionalArgument_loop args t i0 acc = Some (idx, a) ->
  acc = Some (idx, a) \/ matchesToken a t = true.
Proof.
  induction args as [|x args IH]; intros i0 acc idx a H; simpl in H; [auto|].
  destruct (_ || _) eqn:Hx.
  - destruct acc; [discriminate|].
    apply IH in H as [[= <- <-]|H]; right; assumption.
  - apply IH in H. exact H.
Qed.

(** X15.  [findOptionalArgument] returns an argument exactly when that
    argument is the only registered optional argument whose long or short
    token has the text as a prefix; with no such argument, or with two or
    more, it returns nothing. *)
Theorem findOptionalArgument_unique_match (this : ArgumentParser) (t : string)
    (idx : nat) (a : Argument) :
  findOptionalArgument this t = Some (idx, a) <->
  optArgs this !! idx = Some a /\ matchesToken a t = true /\
  (forall (j : nat) b, optArgs this !! j = Some b ->
     matchesToken b t = true -> j = idx).
Proof.
  split.
  - intros H. split; [exact (findOptionalArgument_lookup _ _ _ _ H)|].
    split.
    + apply findOptionalArgument_loop_matches in H as [H|H];
        [discriminate|exact H].
    + intros j b Hj Hb. destruct (decide (j = idx)) as [|Hne]; [assumption|].
      pose proof (findOptionalArgument_lookup _ _ _ _ H) as Hi.
      assert (Hm : matchesToken a t = true).
      { apply findOptionalArgument_loop_matches in H as [H|H];
          [discriminate|exact H]. }
      rewrite (findOptionalArgument_ambiguous this t j idx b a Hne Hj Hi Hb Hm)
        in H. discriminate.
  - intros (Hi & Hm & Huniq). unfold findOptionalArgument.
    exact (findOptionalArgument_loop_unique _ t 0 idx a Hi Hm Huniq).
Qed.

Lemma HasPrefix_trans (s p t : string) :
  strings.HasPrefix s p = true -> strings.HasPrefix p t = true ->
  strings.HasPrefix s t = true.
Proof.
  revert s p. induction t as [|c t IH]; intros s p Hsp Hpt;
    [destruct s; reflexivity|].
  destruct p as [|d p]; [discriminate|]. destruct s as [|e s]; [discriminate|].
  simpl in *. apply andb_prop in Hsp as [H1 H2]. apply andb_prop in Hpt as [H3 H4].
  apply Ascii.eqb_eq in H1, H3. subst. rewrite Ascii.eqb_refl. simpl.
  exact (IH s p H2 H4).
Qed.

(** X16.  An optional argument whose long token is a prefix of the long
    token of another registered argument cannot be selected through its
    long token: its full name and every abbreviation of it match the other
    argument too, so the lookup returns nothing. *)
Theorem shadowed_token_never_found (this : ArgumentParser) (i j : nat)
    (a b : Argument) (t : string) :
  i <> j -> optArgs this !! i = Some a -> optArgs this !! j = Some b ->
  strings.HasPrefix (Token b) (Token a) = true ->
  strings.HasPrefix (Token a) t = true ->
  findOptionalArgument this t = None /\
  findOptionalArgument this (Token a) = None.
Proof.
  intros Hij Hi Hj Hba Hat.
  assert (Haa : strings.HasPrefix (Token a) (Token a) = true).
  { generalize (Token a). intros s. induction s as [|c s IH]; [reflexivity|].
    simpl. now rewrite Ascii.eqb_refl. }
  split.
  - apply (findOptionalArgument_ambiguous this t i j a b Hij Hi Hj);
      unfold matchesToken.
    + now rewrite Hat.
    + now rewrite (HasPrefix_trans _ _ _ Hba Hat).
  - apply (findOptionalArgument_ambiguous this _ i j a b Hij Hi Hj);
      unfold matchesToken.
    + now rewrite Haa.
    + now rewrite Hba.
Qed.

Lemma findOptionalArgument_unique_match_witness :
  findOptionalArgument ex_shadow_parser "name-" = Some (1%nat, ex_NameFull).
Proof.
  apply (findOptionalArgument_unique_match ex_shadow_parser "name-" 1 ex_NameFull).
  split; [reflexivity|]. split; [reflexivity|].
  intros [|[|j]] b Hj Hb; simpl in Hj; [|reflexivity|discriminate].
  injection Hj as <-. discriminate Hb.
Defined.

Lemma shadowed_token_never_found_witness :
  findOptionalArgument ex_shadow_parser "name" = None.
Proof.
  exact (proj1 (shadowed_token_never_found ex_shadow_parser 0 1
                  ex_Name ex_NameFull "name"
                  ltac:(discriminate) eq_refl eq_refl eq_refl eq_refl)).
Defined.

(** ** The parser: invariants of a parse *)

(** A [return] from inside the loop carries an error or a panic. *)
Lemma ParseArgs_loop_return (ext : External) (ig : bool) (args : list string) :
  forall (this t : ArgumentParser) (k : nat) st,
  ParseArgs_loop ext this k args ig = LoopReturn t st -> st <> Nil.
Proof.
  induction args as [args IH] using (induction_ltof1 _ (@length string)).
  unfold ltof in IH. intros this t k st H.
  destruct args as [|tok rest]; [discriminate|].
  cbn [ParseArgs_loop] in H.
  destruct (strings.HasPrefix tok "-").
  - destruct (findOptionalArgument this (strings.TrimLeft tok "-"))
      as [[idx arg]|].
    + destruct (NeedData arg).
      * destruct rest as [|val rest']; [injection H as _ <-; discriminate|].
        destruct (SetValue ext arg val) as [arg' [|e|]];
          try (injection H as _ <-; discriminate).
        eapply (IH rest'); [simpl; lia|exact H].
      * destruct (DoAction arg) as [arg' [|e|]];
          try (injection H as _ <-; discriminate).
        eapply (IH rest); [simpl; lia|exact H].
    + destruct (negb ig); [injection H as _ <-; discriminate|].
      eapply (IH rest); [simpl; lia|exact H].
  - destruct (posArgs this !! k) as [arg|].
    + destruct (SetValue ext arg tok) as [arg' [|e|]];
        try (injection H as _ <-; discriminate).
      destruct (IsSubcommand arg').
      * destruct (GetSubParser arg') as [sub|];
          [|injection H as _ <-; discriminate].
        destruct (after_loop _) as [sub' [|e|]];
          [discriminate|injection H as _ <-; discriminate
          |injection H as _ <-; discriminate].
      * eapply (IH rest); [simpl; lia|exact H].
    + destruct (last (posArgs this)) as [last_arg|].
      * destruct (IsMulti last_arg).
        -- destruct (SetValue ext last_arg tok) as [last_arg' st'].
           eapply (IH rest); [simpl; lia|exact H].
        -- destruct (negb ig); [injection H as _ <-; discriminate|].
           eapply (IH rest); [simpl; lia|exact H].
      * destruct (negb ig); [injection H as _ <-; discriminate|].
        eapply (IH rest); [simpl; lia|exact H].
Qed.

Lemma schema_SetValue (ext : External) (a : Argument) (val : string) :
  schema (fst (SetValue ext a val)) = schema a.
Proof.
  unfold SetValue. destruct a; cbn [base];
    destruct (negb (InChoices s val)); try reflexivity.
  - destruct (gotypes.SetValue _ _ _) as [v [e|]]; reflexivity.
  - destruct (gotypes.AppendValue _ _ _) as [v [e|]]; reflexivity.
  - destruct (gotypes.SetValue _ _ _) as [v [e|]]; reflexivity.
Qed.

Lemma schema_DoAction (a : Argument) : schema (fst (DoAction a)) = schema a.
Proof.
  unfold DoAction. destruct (value (base a)); try reflexivity.
  destruct (useDefault (base a)); [|destruct a; reflexivity].
  destruct (defValue (base a)) as [[]|]; try reflexivity.
  destruct a; reflexivity.
Qed.

Lemma schema_Validate (a : Argument) : schema (fst (Validate a)) = schema a.
Proof.
  assert (HS : forall s, with_isSet (with_value
                 (fst (SingleArgument_Validate s)) (VBool false)) false
               = with_isSet (with_value s (VBool false)) false).
  { intros s. unfold SingleArgument_Validate.
    destruct (_ && _ && _); [reflexivity|].
    destruct (_ && _); [|reflexivity].
    destruct (Set_ _ _); reflexivity. }
  destruct a as [s|s lo hi|s m]; unfold Validate, schema; cbn [base].
  - specialize (HS s). destruct (SingleArgument_Validate s). simpl in *.
    now rewrite HS.
  - unfold MultiArgument_Validate. specialize (HS s).
    destruct (SingleArgument_Validate s) as [s' [|e|]]; simpl in *;
      try (now rewrite HS).
    destruct (Len (value s')); [|simpl; now rewrite HS].
    destruct (_ && _); [simpl; now rewrite HS|].
    destruct (_ && _); simpl; now rewrite HS.
  - specialize (HS s). destruct (SingleArgument_Validate s). simpl in *.
    now rewrite HS.
Qed.

Lemma schema_with_subparser (a : Argument) (sub : ArgumentParser) :
  schema (with_subparser a sub) = schema a.
Proof. destruct a; reflexivity. Qed.

Lemma map_schema_insert (l : list Argument) (i : nat) (a a' : Argument) :
  l !! i = Some a -> schema a' = schema a ->
  map schema (<[i := a']> l) = map schema l.
Proof.
  intros Hi Hs. change (map schema) with (fmap (M := list) schema).
  rewrite list_fmap_insert, Hs. apply list_insert_id.
  rewrite list_lookup_fmap, Hi. reflexivity.
Qed.

Lemma sameSchema_refl (this : ArgumentParser) : sameSchema this this.
Proof. split; reflexivity. Qed.

Lemma sameSchema_trans (p q r : ArgumentParser) :
  sameSchema p q -> sameSchema q r -> sameSchema p r.
Proof. intros [H1 H2] [H3 H4]. split; congruence. Qed.

Lemma sameSchema_opt (this : ArgumentParser) (i : nat) (a a' : Argument) :
  optArgs this !! i = Some a -> schema a' = schema a ->
  sameSchema this (with_optArgs this (<[i := a']> (optArgs this))).
Proof.
  intros Hi Hs. split; cbn [optArgs posArgs with_optArgs]; [|reflexivity].
  exact (map_schema_insert _ _ _ _ Hi Hs).
Qed.

Lemma sameSchema_pos (this : ArgumentParser) (i : nat) (a a' : Argument) :
  posArgs this !! i = Some a -> schema a' = schema a ->
  sameSchema this (with_posArgs this (<[i := a']> (posArgs this))).
Proof.
  intros Hi Hs. split; cbn [optArgs posArgs with_posArgs]; [reflexivity|].
  exact (map_schema_insert _ _ _ _ Hi Hs).
Qed.

Lemma validateArgs_schema (l : list Argument) :
  map schema (fst (validateArgs l)) = map schema l.
Proof.
  induction l as [|a l IH]; [reflexivity|]. cbn [validateArgs].
  pose proof (schema_Validate a) as Ha.
  destruct (Validate a) as [a' [|e|]]; simpl in Ha.
  - destruct (validateArgs l) as [rest e]. simpl in *. now rewrite Ha, IH.
  - simpl. now rewrite Ha.
  - simpl. now rewrite Ha.
Qed.

Lemma ArgumentParser_Validate_schema (this : ArgumentParser) :
  sameSchema this (fst (ArgumentParser_Validate this)).
Proof.
  unfold ArgumentParser_Validate.
  pose proof (validateArgs_schema (posArgs this)) as Hp.
  destruct (validateArgs (posArgs this)) as [pos [|e|]]; simpl in Hp.
  - cbn [optArgs with_posArgs].
    pose proof (validateArgs_schema (optArgs this)) as Ho.
    destruct (validateArgs (optArgs this)) as [opt e]. simpl in Ho |- *.
    split; simpl; assumption.
  - split; simpl; [reflexivity|assumption].
  - split; simpl; [reflexivity|assumption].
Qed.

Lemma after_loop_schema (x : loop_exit) :
  sameSchema (exit_parser x) (fst (after_loop x)).
Proof.
  destruct x as [t k|t k|t st]; simpl; try apply sameSchema_refl.
  - destruct (posArgs t !! k) as [a|];
      [destruct (negb (IsOptional a)); [apply sameSchema_refl|]|];
      apply ArgumentParser_Validate_schema.
  - destruct (posArgs t !! k) as [a|];
      [destruct (negb (IsOptional a)); [apply sameSchema_refl|]|];
      apply ArgumentParser_Validate_schema.
Qed.

Lemma ParseArgs_loop_schema (ext : External) (ig : bool) (args : list string) :
  forall (this : ArgumentParser) (k : nat),
  sameSchema this (exit_parser (ParseArgs_loop ext this k args ig)).
Proof.
  induction args as [args IH] using (induction_ltof1 _ (@length string)).
  unfold ltof in IH. intros this k.
  destruct args as [|tok rest]; [apply sameSchema_refl|].
  cbn [ParseArgs_loop].
  destruct (strings.HasPrefix tok "-").
  - destruct (findOptionalArgument this (strings.TrimLeft tok "-"))
      as [[idx arg]|] eqn:Hf.
    + apply findOptionalArgument_lookup in Hf.
      destruct (NeedData arg).
      * destruct rest as [|val rest']; [apply sameSchema_refl|].
        pose proof (schema_SetValue ext arg val) as Hs.
        destruct (SetValue ext arg val) as [arg' [|e|]]; simpl in Hs;
          try exact (sameSchema_opt _ _ _ _ Hf Hs).
        eapply sameSchema_trans; [exact (sameSchema_opt _ _ _ _ Hf Hs)|].
        apply IH. simpl. lia.
      * pose proof (schema_DoAction arg) as Hs.
        destruct (DoAction arg) as [arg' [|e|]]; simpl in Hs;
          try exact (sameSchema_opt _ _ _ _ Hf Hs).
        eapply sameSchema_trans; [exact (sameSchema_opt _ _ _ _ Hf Hs)|].
        apply IH. simpl. lia.
    + destruct (negb ig); [apply sameSchema_refl|]. apply IH. simpl. lia.
  - destruct (posArgs this !! k) as [arg|] eqn:Hk.
    + pose proof (schema_SetValue ext arg tok) as Hs.
      destruct (SetValue ext arg tok) as [arg' [|e|]]; simpl in Hs;
        try exact (sameSchema_pos _ _ _ _ Hk Hs).
      destruct (IsSubcommand arg').
      * destruct (GetSubParser arg') as [sub|];
          [|exact (sameSchema_pos _ _ _ _ Hk Hs)].
        assert (Hs' : forall sub', schema (with_subparser arg' sub') = schema arg)
          by (intros; now rewrite schema_with_subparser).
        destruct (after_loop _) as [sub' [|e|]]; simpl;
          exact (sameSchema_pos _ _ _ _ Hk (Hs' sub')).
      * eapply sameSchema_trans; [exact (sameSchema_pos _ _ _ _ Hk Hs)|].
        apply IH. simpl. lia.
    + destruct (last (posArgs this)) as [last_arg|] eqn:Hl.
      * destruct (IsMulti last_arg).
        -- pose proof (schema_SetValue ext last_arg tok) as Hs.
           destruct (SetValue ext last_arg tok) as [last_arg' st']. simpl in Hs.
           rewrite last_lookup in Hl.
           eapply sameSchema_trans; [exact (sameSchema_pos _ _ _ _ Hl Hs)|].
           apply IH. simpl. lia.
        -- destruct (negb ig); [apply sameSchema_refl|]. apply IH. simpl. lia.
      * destruct (negb ig); [apply sameSchema_refl|]. apply IH. simpl. lia.
Qed.

(** X17.  A parse, whether it returns [nil], an error or panics, keeps the
    schema: the optional and the positional sequence have the same
    arguments in the same order, each with the kind, bounds, tokens,
    flags, choices and default it was registered with; only slots,
    supplied flags and nested parsers change. *)
Theorem ParseArgs_keeps_schema (ext : External) (this : ArgumentParser)
    (args : list string) (ig : bool) :
  sameSchema this (fst (ParseArgs ext this args ig)) /\
  length (optArgs (fst (ParseArgs ext this args ig))) = length (optArgs this) /\
  length (posArgs (fst (ParseArgs ext this args ig))) = length (posArgs this).
Proof.
  assert (H : sameSchema this (fst (ParseArgs ext this args ig))).
  { unfold ParseArgs. eapply sameSchema_trans;
      [apply (ParseArgs_loop_schema ext ig args this 0)|apply after_loop_schema]. }
  split; [exact H|]. destruct H as [Ho Hp].
  split.
  - rewrite <- (length_map schema), Ho. apply length_map.
  - rewrite <- (length_map schema), Hp. apply length_map.
Qed.

(** The positional cursor advances by at most one for each token that does
    not begin with the marker. *)
Lemma ParseArgs_loop_cursor (ext : External) (ig : bool) (args : list string) :
  forall (this t : ArgumentParser) (k k' : nat),
  ParseArgs_loop ext this k args ig = LoopEnd t k'
  \/ ParseArgs_loop ext this k args ig = LoopBreak t k' ->
  (k' <= k + length (positionalTokens args))%nat.
Proof.
  induction args as [args IH] using (induction_ltof1 _ (@length string)).
  unfold ltof in IH. intros this t k k' H.
  destruct args as [|tok rest].
  { destruct H as [H|H]; [injection H as _ <-; simpl; lia|discriminate]. }
  assert (Hmono : forall l : list string,
            (length (positionalTokens l)
             <= length (positionalTokens (tok :: l)))%nat).
  { intros l. unfold positionalTokens. simpl. destruct (negb _); simpl; lia. }
  assert (Hmono2 : forall v (l : list string),
            (length (positionalTokens l)
             <= length (positionalTokens (tok :: v :: l)))%nat).
  { intros v l. unfold positionalTokens. simpl.
    destruct (negb _); destruct (negb _); simpl; lia. }
  cbn [ParseArgs_loop] in H.
  destruct (strings.HasPrefix tok "-") eqn:Htok.
  - destruct (findOptionalArgument this (strings.TrimLeft tok "-"))
      as [[idx arg]|].
    + destruct (NeedData arg).
      * destruct rest as [|val rest']; [destruct H; discriminate|].
        destruct (SetValue ext arg val) as [arg' [|e|]];
          try (destruct H; discriminate).
        apply IH in H; [|simpl; lia]. specialize (Hmono2 val rest'). lia.
      * destruct (DoAction arg) as [arg' [|e|]];
          try (destruct H; discriminate).
        apply IH in H; [|simpl; lia]. specialize (Hmono rest). lia.
    + destruct (negb ig); [destruct H; discriminate|].
      apply IH in H; [|simpl; lia]. specialize (Hmono rest). lia.
  - assert (Hcount : length (positionalTokens (tok :: rest))
                     = S (length (positionalTokens rest))).
    { unfold positionalTokens. simpl. rewrite Htok. reflexivity. }
    destruct (posArgs this !! k) as [arg|].
    + destruct (SetValue ext arg tok) as [arg' [|e|]];
        try (destruct H; discriminate).
      destruct (IsSubcommand arg').
      * destruct (GetSubParser arg') as [sub|]; [|destruct H; discriminate].
        destruct (after_loop _) as [sub' [|e|]];
          try (destruct H; discriminate).
        destruct H as [H|H]; [discriminate|]. injection H as _ <-. lia.
      * apply IH in H; [|simpl; lia]. lia.
    + destruct (last (posArgs this)) as [last_arg|].
      * destruct (IsMulti last_arg).
        -- destruct (SetValue ext last_arg tok) as [last_arg' st'].
           apply IH in H; [|simpl; lia]. lia.
        -- destruct (negb ig); [destruct H; discriminate|].
           apply IH in H; [|simpl; lia]. lia.
      * destruct (negb ig); [destruct H; discriminate|].
        apply IH in H; [|simpl; lia]. lia.
Qed.

Lemma schema_optional (a b : Argument) :
  schema a = schema b -> IsOptional a = IsOptional b.
Proof.
  unfold schema, IsOptional. intros H.
  apply (f_equal snd) in H. simpl in H.
  apply (f_equal optional) in H. exact H.
Qed.

Lemma sameSchema_lookup_pos (this t : ArgumentParser) (i : nat) (a : Argument) :
  sameSchema this t -> posArgs this !! i = Some a ->
  exists b, posArgs t !! i = Some b /\ schema b = schema a.
Proof.
  intros [_ Hp] Hi.
  assert (H : map schema (posArgs t) !! i = Some (schema a)).
  { rewrite Hp. change (map schema) with (fmap (M := list) schema).
    rewrite list_lookup_fmap, Hi. reflexivity. }
  change (map schema) with (fmap (M := list) schema) in H.
  rewrite list_lookup_fmap in H.
  destruct (posArgs t !! i) as [b|]; [|discriminate].
  exists b. split; [reflexivity|]. simpl in H. congruence.
Qed.

(** X18.  Only tokens that do not begin with the marker fill positional
    slots, one slot each at most.  So when the first [n + 1] positional
    arguments are all required and the command line has only [n] such
    tokens, the parse does not return [nil], in strict mode or lenient. *)
Theorem ParseArgs_needs_enough_positionals (ext : External)
    (this : ArgumentParser) (args : list string) (ig : bool) :
  (forall i : nat, (i <= length (positionalTokens args))%nat ->
     exists a, posArgs this !! i = Some a /\ IsOptional a = false) ->
  snd (ParseArgs ext this args ig) <> Nil.
Proof.
  intros Hreq. unfold ParseArgs.
  pose proof (ParseArgs_loop_schema ext ig args this 0) as Hsch.
  destruct (ParseArgs_loop ext this 0 args ig) as [t k'|t k'|t st] eqn:E.
  - pose proof (ParseArgs_loop_cursor ext ig args this t 0 k' (or_introl E)) as Hk.
    destruct (Hreq k' ltac:(lia)) as (a & Ha & Hopt).
    destruct (sameSchema_lookup_pos _ _ _ _ Hsch Ha) as (b & Hb & Hs).
    simpl. simpl in Hb. rewrite Hb, (schema_optional _ _ Hs), Hopt.
    simpl. discriminate.
  - pose proof (ParseArgs_loop_cursor ext ig args this t 0 k' (or_intror E)) as Hk.
    destruct (Hreq k' ltac:(lia)) as (a & Ha & Hopt).
    destruct (sameSchema_lookup_pos _ _ _ _ Hsch Ha) as (b & Hb & Hs).
    simpl. simpl in Hb. rewrite Hb, (schema_optional _ _ Hs), Hopt.
    simpl. discriminate.
  - simpl. exact (ParseArgs_loop_return ext ig args this t 0 st E).
Qed.

Lemma ParseArgs_needs_enough_positionals_witness :
  snd (ParseArgs ext_none ex_cli_parser ["--verbose"; "-x"] true) <> Nil.
Proof.
  apply ParseArgs_needs_enough_positionals.
  intros i Hi. simpl in Hi. assert (i = 0%nat) as -> by lia.
  exists ex_NAME. split; reflexivity.
Defined.

Lemma SingleArgument_validated (s s' : SingleArgument) :
  SingleArgument_Validate s = (s', Nil) ->
  optional s' || isSet s' || useDefault s' = true /\
  (isSet s' = false -> useDefault s' = true -> defValue s' = Some (value s')).
Proof.
  intros Hs.
  apply SingleArgument_Validate_Nil in Hs as (Hreq & v & Hv & ->).
  split; [exact Hreq|]. cbn [with_value isSet defValue value useDefault].
  intros Hset Hu. unfold slotAfterDefault in Hv. rewrite Hset, Hu in Hv.
  simpl in Hv. unfold Set_ in Hv. destruct (defValue s) as [d|]; [|discriminate].
  destruct (Type_eqb _ _); [|discriminate]. congruence.
Qed.

Lemma Validate_validated (a a' : Argument) :
  Validate a = (a', Nil) -> validated a'.
Proof.
  destruct a as [s|s lo hi|s m]; unfold Validate; cbn [base with_base].
  - destruct (SingleArgument_Validate s) as [s' st] eqn:E.
    intros [= <- ->]. apply SingleArgument_validated in E as [H1 H2].
    repeat split; assumption.
  - unfold MultiArgument_Validate.
    destruct (SingleArgument_Validate s) as [s' [|e|]] eqn:E;
      try (intros [= _ ?]; discriminate).
    apply SingleArgument_validated in E as [H1 H2].
    destruct (Len (value s')) as [n|] eqn:Hn; [|intros [= _ ?]; discriminate].
    destruct (Z.leb_spec 0 lo), (Z.ltb_spec n lo); simpl;
      try (intros [= _ ?]; discriminate);
      destruct (Z.leb_spec 0 hi), (Z.ltb_spec hi n); simpl;
      try (intros [= _ ?]; discriminate);
      intros [= <-]; (split; [exact H1|]); (split; [exact H2|]);
      exists n; (split; [exact Hn|]); unfold withinBounds; lia.
  - destruct (SingleArgument_Validate s) as [s' st] eqn:E.
    intros [= <- ->]. apply SingleArgument_validated in E as [H1 H2].
    repeat split; assumption.
Qed.

Lemma validateArgs_validated (l l' : list Argument) :
  validateArgs l = (l', Nil) -> Forall validated l'.
Proof.
  revert l'. induction l as [|a l IH]; intros l' H.
  - injection H as <-. constructor.
  - cbn [validateArgs] in H.
    destruct (Validate a) as [a' [|e|]] eqn:Ha; try discriminate.
    destruct (validateArgs l) as [rest e] eqn:Hl. injection H as <- ->.
    constructor; [exact (Validate_validated _ _ Ha)|now apply IH].
Qed.

(** X19.  When a parse returns [nil], every argument of the parser has
    passed validation: it is optional, or was supplied, or has a default;
    a slot that was not supplied and has a default holds that default;
    and the slot of a multi-valued argument has a length within its
    bounds. *)
Theorem ParseArgs_nil_validated (ext : External) (this this' : ArgumentParser)
    (args : list string) (ig : bool) :
  ParseArgs ext this args ig = (this', Nil) ->
  Forall validated (posArgs this') /\ Forall validated (optArgs this').
Proof.
  unfold ParseArgs. intros H.
  assert (HV : forall t, ArgumentParser_Validate t = (this', Nil) ->
            Forall validated (posArgs this') /\ Forall validated (optArgs this')).
  { intros t. unfold ArgumentParser_Validate.
    destruct (validateArgs (posArgs t)) as [pos [|e|]] eqn:Hp;
      try (intros [= _ ?]; discriminate).
    cbn [optArgs with_posArgs].
    destruct (validateArgs (optArgs t)) as [opt e] eqn:Ho.
    intros [= <- ->]. simpl.
    split; eapply validateArgs_validated; eassumption. }
  destruct (ParseArgs_loop ext this 0 args ig) as [t k'|t k'|t st] eqn:E;
    cbn [after_loop] in H.
  - destruct (posArgs t !! k') as [a|];
      [destruct (negb (IsOptional a)); [discriminate|]|]; exact (HV t H).
  - destruct (posArgs t !! k') as [a|];
      [destruct (negb (IsOptional a)); [discriminate|]|]; exact (HV t H).
  - injection H as _ ->.
    now pose proof (ParseArgs_loop_return ext ig args this t 0 Nil E).
Qed.

Lemma ParseArgs_nil_validated_witness :
  Forall validated
    (optArgs (fst (ParseArgs ext_none ex_cli_parser ["alice"] false))).
Proof.
  refine (proj2 (ParseArgs_nil_validated ext_none ex_cli_parser _ ["alice"]
                   false _)).
  reflexivity.
Defined.

(** ** The parser: strict and lenient mode *)

Lemma after_loop_Nil_not_return (x : loop_exit) (t : ArgumentParser) :
  (forall t' st, x = LoopReturn t' st -> st <> Nil) ->
  after_loop x = (t, Nil) -> isReturn x = false.
Proof.
  intros Hret H. destruct x as [| |t' st]; try reflexivity.
  simpl in H. injection H as _ ->. now pose proof (Hret t' Nil eq_refl).
Qed.

Lemma ParseArgs_loop_strict_lenient (ext : External) (args : list string) :
  forall (this : ArgumentParser) (k : nat),
  isReturn (ParseArgs_loop ext this k args false) = false ->
  ParseArgs_loop ext this k args true = ParseArgs_loop ext this k args false.
Proof.
  induction args as [args IH] using (induction_ltof1 _ (@length string)).
  unfold ltof in IH. intros this k H.
  destruct args as [|tok rest]; [reflexivity|].
  cbn [ParseArgs_loop] in H |- *.
  destruct (strings.HasPrefix tok "-").
  - destruct (findOptionalArgument this (strings.TrimLeft tok "-"))
      as [[idx arg]|]; [|discriminate].
    destruct (NeedData arg).
    + destruct rest as [|val rest']; [reflexivity|].
      destruct (SetValue ext arg val) as [arg' [|e|]]; try reflexivity.
      apply IH; [simpl; lia|exact H].
    + destruct (DoAction arg) as [arg' [|e|]]; try reflexivity.
      apply IH; [simpl; lia|exact H].
  - destruct (posArgs this !! k) as [arg|].
    + destruct (SetValue ext arg tok) as [arg' [|e|]]; try reflexivity.
      destruct (IsSubcommand arg').
      * destruct (GetSubParser arg') as [sub|]; [|reflexivity].
        destruct (after_loop (ParseArgs_loop ext sub 0 rest false))
          as [sub' st] eqn:Hsub.
        destruct st; try discriminate.
        rewrite (IH rest ltac:(simpl; lia) sub 0%nat), Hsub; [reflexivity|].
        eapply after_loop_Nil_not_return; [|exact Hsub].
        intros t' st Hx. eapply ParseArgs_loop_return. exact Hx.
      * apply IH; [simpl; lia|exact H].
    + destruct (last (posArgs this)) as [last_arg|]; [|discriminate].
      destruct (IsMulti last_arg); [|discriminate].
      destruct (SetValue ext last_arg tok) as [last_arg' st'].
      apply IH; [simpl; lia|exact H].
Qed.

(** X20.  Lenient mode changes nothing for a command line that strict mode
    accepts: when the strict parse returns [nil], the lenient parse
    returns [nil] with the same parser state. *)
Theorem ParseArgs_strict_implies_lenient (ext : External)
    (this this' : ArgumentParser) (args : list string) :
  ParseArgs ext this args false = (this', Nil) ->
  ParseKnownArgs ext this args = (this', Nil).
Proof.
  unfold ParseKnownArgs, ParseArgs. intros H.
  rewrite ParseArgs_loop_strict_lenient; [exact H|].
  eapply after_loop_Nil_not_return; [|exact H].
  intros t' st Hx. eapply ParseArgs_loop_return. exact Hx.
Qed.

Lemma ParseArgs_strict_implies_lenient_witness :
  snd (ParseKnownArgs ext_none ex_cli_parser ["alice"; "--verbose"]) = Nil.
Proof.
  erewrite ParseArgs_strict_implies_lenient; reflexivity.
Defined.

Lemma SetValue_not_unknown (ext : External) (a : Argument) (val : string) :
  statusUnknown (snd (SetValue ext a val)) = false.
Proof.
  unfold SetValue.
  assert (HS : forall v, match snd (gotypes.SetValue ext v val) with
                         | Some e => isUnknownError e = false
                         | None => True
                         end).
  { intros v. unfold gotypes.SetValue. destruct v; simpl; auto.
    - destruct (strconv.ParseBool val) as [? [?|]]; simpl; auto.
    - destruct (strconv.ParseInt val 64) as [? [?|]]; simpl; auto.
    - destruct (strconv.ParseUint val 64) as [? [?|]]; simpl; auto.
    - destruct (ParseFloat ext val) as [? [?|]]; simpl; auto. }
  assert (HP : forall tp, match snd (gotypes.ParseValue ext val tp) with
                          | Some e => isUnknownError e = false
                          | None => True
                          end).
  { intros tp. unfold gotypes.ParseValue. destruct tp; simpl; auto.
    - destruct (strconv.ParseBool val) as [? [?|]]; simpl; auto.
    - destruct (strconv.ParseInt val 64) as [? [?|]]; simpl; auto.
    - destruct (strconv.ParseUint val 64) as [? [?|]]; simpl; auto.
    - destruct (ParseFloat ext val) as [? [?|]]; simpl; auto. }
  assert (HA : forall v, match snd (gotypes.AppendValue ext v val) with
                         | Some e => isUnknownError e = false
                         | None => True
                         end).
  { intros v. unfold gotypes.AppendValue.
    destruct (gotypes.SliceBaseType (TypeOf v)) as [tp|]; [|reflexivity].
    specialize (HP tp).
    destruct (gotypes.ParseValue ext val tp) as [x [e|]]; simpl in *; auto. }
  destruct a; cbn [base]; destruct (negb (InChoices s val)); try reflexivity.
  - specialize (HS (value s)).
    destruct (gotypes.SetValue ext (value s) val) as [v [e|]]; simpl in *; auto.
  - specialize (HA (value s)).
    destruct (gotypes.AppendValue ext (value s) val) as [v [e|]]; simpl in *; auto.
  - specialize (HS (value s)).
    destruct (gotypes.SetValue ext (value s) val) as [v [e|]]; simpl in *; auto.
Qed.

Lemma DoAction_not_unknown (a : Argument) :
  statusUnknown (snd (DoAction a)) = false.
Proof.
  unfold DoAction. destruct (value (base a)); try reflexivity.
  destruct (useDefault (base a)); [|reflexivity].
  destruct (defValue (base a)) as [[]|]; reflexivity.
Qed.

Lemma validateArgs_not_unknown (l : list Argument) :
  statusUnknown (snd (validateArgs l)) = false.
Proof.
  induction l as [|a l IH]; [reflexivity|]. cbn [validateArgs].
  destruct (Validate a) as [a' [|e|]]; try reflexivity.
  destruct (validateArgs l) as [rest e]. exact IH.
Qed.

Lemma after_loop_not_unknown (x : loop_exit) :
  (forall t st, x = LoopReturn t st -> statusUnknown st = false) ->
  statusUnknown (snd (after_loop x)) = false.
Proof.
  assert (HV : forall t, statusUnknown (snd (ArgumentParser_Validate t)) = false).
  { intros t. unfold ArgumentParser_Validate.
    pose proof (validateArgs_not_unknown (posArgs t)) as Hp.
    destruct (validateArgs (posArgs t)) as [pos [|e|]]; try exact Hp.
    cbn [optArgs with_posArgs].
    pose proof (validateArgs_not_unknown (optArgs t)) as Ho.
    destruct (validateArgs (optArgs t)) as [opt e]. exact Ho. }
  intros Hret. destruct x as [t k|t k|t st]; simpl.
  - destruct (posArgs t !! k) as [a|];
      [destruct (negb (IsOptional a)); [reflexivity|]|]; apply HV.
  - destruct (posArgs t !! k) as [a|];
      [destruct (negb (IsOptional a)); [reflexivity|]|]; apply HV.
  - exact (Hret t st eq_refl).
Qed.

Lemma ParseArgs_loop_lenient_known (ext : External) (args : list string) :
  forall (this t : ArgumentParser) (k : nat) st,
  ParseArgs_loop ext this k args true = LoopReturn t st ->
  statusUnknown st = false.
Proof.
  induction args as [args IH] using (induction_ltof1 _ (@length string)).
  unfold ltof in IH. intros this t k st H.
  destruct args as [|tok rest]; [discriminate|].
  cbn [ParseArgs_loop] in H.
  destruct (strings.HasPrefix tok "-").
  - destruct (findOptionalArgument this (strings.TrimLeft tok "-"))
      as [[idx arg]|].
    + destruct (NeedData arg).
      * destruct rest as [|val rest']; [injection H as _ <-; reflexivity|].
        pose proof (SetValue_not_unknown ext arg val) as Hs.
        destruct (SetValue ext arg val) as [arg' [|e|]];
          try (injection H as _ <-; exact Hs).
        eapply (IH rest'); [simpl; lia|exact H].
      * pose proof (DoAction_not_unknown arg) as Hs.
        destruct (DoAction arg) as [arg' [|e|]];
          try (injection H as _ <-; exact Hs).
        eapply (IH rest); [simpl; lia|exact H].
    + simpl in H. eapply (IH rest); [simpl; lia|exact H].
  - destruct (posArgs this !! k) as [arg|].
    + pose proof (SetValue_not_unknown ext arg tok) as Hs.
      destruct (SetValue ext arg tok) as [arg' [|e|]];
        try (injection H as _ <-; exact Hs).
      destruct (IsSubcommand arg').
      * destruct (GetSubParser arg') as [sub|];
          [|injection H as _ <-; reflexivity].
        pose proof (after_loop_not_unknown
                      (ParseArgs_loop ext sub 0 rest true)) as Hn.
        destruct (after_loop _) as [sub' [|e|]]; [discriminate| |];
          injection H as _ <-; apply Hn;
          intros t' st' Hx; eapply (IH rest); try exact Hx; simpl; lia.
      * eapply (IH rest); [simpl; lia|exact H].
    + destruct (last (posArgs this)) as [last_arg|].
      * destruct (IsMulti last_arg).
        -- destruct (SetValue ext last_arg tok) as [last_arg' st'].
           eapply (IH rest); [simpl; lia|exact H].
        -- simpl in H. eapply (IH rest); [simpl; lia|exact H].
      * simpl in H. eapply (IH rest); [simpl; lia|exact H].
Qed.

(** X21.  A lenient parse never fails because a token is unknown: whatever
    the parser and the command line, at this level and in the nested
    parsers of subcommands, [ParseKnownArgs] returns neither the
    unknown-optional nor the unknown-positional error. *)
Theorem ParseKnownArgs_never_unknown (ext : External) (this : ArgumentParser)
    (args : list string) (tok : string) :
  snd (ParseKnownArgs ext this args) <> Err (UnknownOptional tok) /\
  snd (ParseKnownArgs ext this args) <> Err (UnknownPositional tok).
Proof.
  assert (H : statusUnknown (snd (ParseKnownArgs ext this args)) = false).
  { unfold ParseKnownArgs, ParseArgs. apply after_loop_not_unknown.
    intros t st Hx. eapply ParseArgs_loop_lenient_known. exact Hx. }
  split; intros E; rewrite E in H; discriminate.
Qed.

(** ** The parser: order of tokens, and the selected command *)

Lemma IsSubcommand_SetValue (ext : External) (a a' : Argument) (val : string) st :
  SetValue ext a val = (a', st) -> IsSubcommand a' = IsSubcommand a.
Proof.
  unfold SetValue. destruct a; cbn [base];
    destruct (negb (InChoices s val)); try (intros [= <- _]; reflexivity).
  - destruct (gotypes.SetValue _ _ _) as [v [e|]]; intros [= <- _]; reflexivity.
  - destruct (gotypes.AppendValue _ _ _) as [v [e|]]; intros [= <- _]; reflexivity.
  - destruct (gotypes.SetValue _ _ _) as [v [e|]]; intros [= <- _]; reflexivity.
Qed.

(** X22.  An optional argument (a flag, or an option followed by its
    value) and a positional value that fills a slot which is no subcommand
    may come in either order: when both are accepted, the loop continues
    from the same state, and so do whole parses with any common tokens
    before and after.  (After a subcommand name the order matters: what
    follows goes to the nested parser.) *)
Theorem option_and_positional_commute (ext : External)
    (this this1 : ArgumentParser) (k idx : nat) (arg arg' parg parg' : Argument)
    (pre : list string) (opt : list string) (f p : string)
    (rest : list string) (ig : bool) :
  ParseArgs_loop ext this 0 pre ig = LoopEnd this1 k ->
  strings.HasPrefix f "-" = true ->
  findOptionalArgument this1 (strings.TrimLeft f "-") = Some (idx, arg) ->
  (NeedData arg = false /\ opt = [f] /\ DoAction arg = (arg', Nil)
   \/ exists v, NeedData arg = true /\ opt = [f; v]
                /\ SetValue ext arg v = (arg', Nil)) ->
  strings.HasPrefix p "-" = false ->
  posArgs this1 !! k = Some parg ->
  IsSubcommand parg = false ->
  SetValue ext parg p = (parg', Nil) ->
  ParseArgs_loop ext this1 k (opt ++ p :: rest) ig
    = ParseArgs_loop ext this1 k (p :: opt ++ rest) ig /\
  ParseArgs ext this (pre ++ opt ++ p :: rest) ig
    = ParseArgs ext this (pre ++ p :: opt ++ rest) ig.
Proof.
  intros Hpre Hf Hfind Hopt Hp Hk Hsub Hset.
  assert (Hsub' : IsSubcommand parg' = false)
    by (rewrite (IsSubcommand_SetValue _ _ _ _ _ Hset); exact Hsub).
  assert (Hstep : ParseArgs_loop ext this1 k (opt ++ p :: rest) ig
                  = ParseArgs_loop ext this1 k (p :: opt ++ rest) ig).
  { transitivity
      (ParseArgs_loop ext
         (with_posArgs (with_optArgs this1 (<[idx := arg']> (optArgs this1)))
            (<[k := parg']> (posArgs this1)))
         (S k) rest ig).
    - destruct Hopt as [(Hnd & -> & Hact)|(v & Hnd & -> & Hval)].
      + cbn [app ParseArgs_loop]. rewrite Hf, Hfind, Hnd, Hact.
        cbn [ParseArgs_loop posArgs with_optArgs].
        rewrite Hp, Hk, Hset, Hsub'. reflexivity.
      + cbn [app ParseArgs_loop]. rewrite Hf, Hfind, Hnd, Hval.
        cbn [ParseArgs_loop posArgs with_optArgs].
        rewrite Hp, Hk, Hset, Hsub'. reflexivity.
    - symmetry. cbn [ParseArgs_loop]. rewrite Hp, Hk, Hset, Hsub'.
      unfold findOptionalArgument in Hfind.
      destruct Hopt as [(Hnd & -> & Hact)|(v & Hnd & -> & Hval)].
      + cbn [app ParseArgs_loop]. rewrite Hf. unfold findOptionalArgument.
        cbn [optArgs with_posArgs]. rewrite Hfind, Hnd, Hact. reflexivity.
      + cbn [app ParseArgs_loop]. rewrite Hf. unfold findOptionalArgument.
        cbn [optArgs with_posArgs]. rewrite Hfind, Hnd, Hval. reflexivity. }
  split; [exact Hstep|]. unfold ParseArgs.
  rewrite (ParseArgs_loop_app ext ig pre this this1 0 k _ Hpre).
  rewrite (ParseArgs_loop_app ext ig pre this this1 0 k _ Hpre).
  now rewrite Hstep.
Qed.

Lemma option_and_positional_commute_witness :
  ParseArgs ext_none ex_cli_parser ([] ++ ["--verbose"] ++ "alice" :: []) false
  = ParseArgs ext_none ex_cli_parser ([] ++ "alice" :: ["--verbose"] ++ []) false.
Proof.
  refine (proj2 (option_and_positional_commute ext_none ex_cli_parser
                   ex_cli_parser 0 0 ex_VerboseFlag _ ex_NAME _
                   [] ["--verbose"] "--verbose" "alice" [] false
                   eq_refl eq_refl eq_refl _ eq_refl eq_refl eq_refl eq_refl)).
  left. repeat split; reflexivity.
Defined.

(** X23.  Filling a subcommand slot with a name for which no parser is
    registered, though the choice check lets it through (no choices at
    all, or a name listed by a [choices] tag only), makes the parse panic:
    [GetSubParser] returns [nil] and the nested parse is called on it.  In
    particular a subcommand argument with nothing registered panics on
    every positional token that reaches it. *)
Theorem unregistered_command_panics (ext : External) (this : ArgumentParser)
    (k : nat) (s : SingleArgument) (subs : gmap string ArgumentParser)
    (name : string) (rest : list string) (ig : bool) :
  posArgs this !! k = Some (Subcommand s subs) ->
  TypeOf (value s) = TString ->
  InChoices s name = true ->
  subs !! name = None ->
  strings.HasPrefix name "-" = false ->
  ParseArgs_loop ext this k (name :: rest) ig
    = LoopReturn
        (with_posArgs this
           (<[k := Subcommand (selected s name) subs]> (posArgs this)))
        Panic /\
  (k = 0%nat -> snd (ParseArgs ext this (name :: rest) ig) = Panic).
Proof.
  intros Hk Ht Hc Hsub Hname.
  assert (Hstep : ParseArgs_loop ext this k (name :: rest) ig
    = LoopReturn
        (with_posArgs this
           (<[k := Subcommand (selected s name) subs]> (posArgs this)))
        Panic).
  { cbn [ParseArgs_loop]. rewrite Hname, Hk.
    rewrite (SetValue_subcommand ext s subs name Ht Hc).
    cbn [IsSubcommand GetSubParser selected with_isSet with_value value String_].
    rewrite Hsub. reflexivity. }
  split; [exact Hstep|]. intros ->. unfold ParseArgs. rewrite Hstep. reflexivity.
Qed.

Lemma unregistered_command_panics_witness :
  snd (ParseArgs ext_none ex_no_command_parser ["run"; "alice"] true) = Panic.
Proof.
  refine (proj2 (unregistered_command_panics ext_none ex_no_command_parser 0
                   ex_SUBCMD_empty ∅ "run" ["alice"] true
                   eq_refl eq_refl eq_refl _ eq_refl)
            eq_refl).
  apply lookup_empty.
Defined.

(** ** Validation of a parser *)

(** X24.  Validation stops at the first argument that fails: the
    arguments before it have been validated (defaults copied), the ones
    after it are left untouched, and the error is that argument's, wrapped
    with its derived token.  Positional arguments come first: when one of
    them fails, no optional argument is looked at. *)
Theorem validateArgs_stops_at_first_error (l1 l2 : list Argument)
    (a a' : Argument) (e : error) :
  Forall (fun x => snd (Validate x) = Nil) l1 ->
  Validate a = (a', Err e) ->
  validateArgs (l1 ++ a :: l2)
    = ((map (fun x => fst (Validate x)) l1 ++ a' :: l2)%list,
       Err (ArgError (Token a) e)) /\
  (forall this : ArgumentParser, posArgs this = (l1 ++ a :: l2)%list ->
     ArgumentParser_Validate this
       = (with_posArgs this (map (fun x => fst (Validate x)) l1 ++ a' :: l2),
          Err (ArgError (Token a) e))).
Proof.
  intros Hall Ha.
  assert (H : validateArgs (l1 ++ a :: l2)
    = ((map (fun x => fst (Validate x)) l1 ++ a' :: l2)%list,
       Err (ArgError (Token a) e))).
  { induction Hall as [|x l1 Hx _ IH].
    - cbn [app map validateArgs]. rewrite Ha. reflexivity.
    - cbn [app map validateArgs].
      destruct (Validate x) as [x' st]. simpl in Hx. subst st.
      rewrite IH. reflexivity. }
  split; [exact H|].
  intros this Hpos. unfold ArgumentParser_Validate. rewrite Hpos, H. reflexivity.
Qed.

Lemma validateArgs_stops_at_first_error_witness :
  ArgumentParser_Validate
    (with_posArgs ex_cli_parser ([ex_NAME_alice] ++ ex_NAME :: [ex_FILES]))
  = (with_posArgs ex_cli_parser
       (map (fun x => fst (Validate x)) [ex_NAME_alice] ++ ex_NAME :: [ex_FILES]),
     Err (ArgError "NAME" (NonOptionalNotSet "NAME"))).
Proof.
  refine (proj2 (validateArgs_stops_at_first_error [ex_NAME_alice] [ex_FILES]
                   ex_NAME ex_NAME (NonOptionalNotSet "NAME") _ eq_refl)
            (with_posArgs ex_cli_parser ([ex_NAME_alice] ++ ex_NAME :: [ex_FILES]))
            eq_refl).
  repeat constructor.
Defined.

(** ** The key-value file source, further *)






(** X26.  A line whose key resolves to an argument but whose value the
    argument rejects (outside the choices, or not coercible) is skipped
    without trace: the argument is unchanged, nothing is logged, and the
    read continues with the next line. *)
Theorem ParseFile_ignores_rejected_value (ext : External)
    (this : ArgumentParser) (log : Log) (line key val : string)
    (rest : list string) (idx : nat) (arg arg' : Argument) (e : error) :
  splitLine line = Some (key, val) ->
  findOptionalArgument this key = Some (idx, arg) ->
  SetValue ext arg val = (arg', Err e) ->
  ParseFile_loop ext this log (line :: rest) = ParseFile_loop ext this log rest.
Proof.
  intros Hl Hf Hs. rewrite ParseFile_loop_cons, Hl.
  unfold parseKeyValue. rewrite Hf, Hs.
  apply SetValue_error_unchanged in Hs. subst arg'.
  rewrite list_insert_id by exact (findOptionalArgument_lookup _ _ _ _ Hf).
  now rewrite with_optArgs_id.
Qed.

Lemma ParseFile_ignores_rejected_value_witness :
  ParseFile_loop ext_none ex_timeout_parser [] ["timeout = soon"]
  = (ex_timeout_parser, [], Nil).
Proof.
  exact (ParseFile_ignores_rejected_value ext_none ex_timeout_parser []
           "timeout = soon" "timeout" "soon" [] 1 ex_Timeout ex_Timeout
           (NumError "ParseInt" "soon" strconv.ErrSyntax)
           eq_refl eq_refl eq_refl).
Defined.

(** ** Rendering *)

Lemma Split_nonempty (s : string) (c : ascii) : strings.Split s c <> [].
Proof.
  destruct s as [|d s]; simpl; [discriminate|].
  destruct (Ascii.eqb d c); [discriminate|].
  destruct (strings.Split s c); discriminate.
Qed.

Lemma Join_cons2 (x y : string) (l : list string) (sep : string) :
  strings.Join (x :: y :: l) sep = x ++ sep ++ strings.Join (y :: l) sep.
Proof. reflexivity. Qed.

(** Joining the pieces of a split with the separator gives the text back. *)
Lemma Join_Split (s : string) (c : ascii) :
  strings.Join (strings.Split s c) (String c EmptyString) = s.
Proof.
  induction s as [|d s IH]; [reflexivity|]. cbn [strings.Split].
  pose proof (Split_nonempty s c) as Hne.
  destruct (Ascii.eqb_spec d c) as [->|Hd].
  - destruct (strings.Split s c) as [|p ps]; [contradiction|].
    rewrite Join_cons2, IH. reflexivity.
  - destruct (strings.Split s c) as [|p ps]; [contradiction|].
    destruct ps as [|q qs].
    + simpl in IH |- *. now rewrite IH.
    + rewrite Join_cons2 in IH |- *. rewrite string_app_cons, IH. reflexivity.
Qed.

Lemma Split_pieces (s : string) (c : ascii) :
  Forall (fun p => strings.IndexByte p c = -1) (strings.Split s c).
Proof.
  induction s as [|d s IH]; [repeat constructor|]. cbn [strings.Split].
  destruct (Ascii.eqb d c) eqn:Hd; [constructor; [reflexivity|exact IH]|].
  destruct (strings.Split s c) as [|p ps]; [repeat constructor; simpl; now rewrite Hd|].
  apply Forall_cons in IH as [Hp Hps]. constructor; [|exact Hps].
  simpl. rewrite Hd, Hp. reflexivity.
Qed.

Lemma Join_cons_ne (x : string) (l : list string) (sep : string) :
  l <> [] -> strings.Join (x :: l) sep = x ++ sep ++ strings.Join l sep.
Proof. destruct l; [contradiction|reflexivity]. Qed.

Lemma Join_indent (indent : string) (l : list string) :
  l <> [] ->
  indent ++ strings.Join l (String "010" indent)
  = strings.Join (map (fun line => indent ++ line) l) (String "010" EmptyString).
Proof.
  induction l as [|x l IH]; intros Hne; [contradiction|].
  destruct l as [|y l]; [reflexivity|].
  change (map (fun line => indent ++ line) (x :: y :: l))
    with ((indent ++ x) :: map (fun line => indent ++ line) (y :: l)).
  rewrite (Join_cons_ne (indent ++ x)) by discriminate.
  rewrite <- IH by discriminate. rewrite Join_cons2.
  rewrite !string_app_assoc. reflexivity.
Qed.

(** X27.  The help of an argument is rendered line by line, each line
    behind the indentation, the lines separated by newlines as in the help
    text; with an empty indentation the help text comes back unchanged. *)
Theorem HelpString_indents_every_line (s : SingleArgument) (indent : string) :
  SingleArgument_HelpString s indent
    = strings.Join (map (fun line => indent ++ line)
                      (strings.Split (help s) "010"))
        (String "010" EmptyString) /\
  SingleArgument_HelpString s EmptyString = help s.
Proof.
  unfold SingleArgument_HelpString. split.
  - apply Join_indent, Split_nonempty.
  - rewrite string_app_nil_l. apply Join_Split.
Qed.

(** X28.  The short description of a parser is the first line of its
    description: it contains no newline, and the description is the short
    description followed by nothing or by a newline and the rest. *)
Theorem ShortDescription_first_line (this : ArgumentParser) :
  strings.IndexByte (ShortDescription this) "010" = -1 /\
  (description this = ShortDescription this \/
   exists rest,
     description this = ShortDescription this ++ String "010" rest).
Proof.
  unfold ShortDescription.
  pose proof (Split_pieces (description this) "010") as Hp.
  pose proof (Join_Split (description this) "010") as Hj.
  pose proof (Split_nonempty (description this) "010") as Hne.
  destruct (strings.Split (description this) "010") as [|x l]; [contradiction|].
  apply Forall_cons in Hp as [Hx _]. split; [exact Hx|].
  destruct l as [|y l]; [left; now rewrite <- Hj|].
  right. rewrite Join_cons2 in Hj. rewrite string_app_cons, string_app_nil_l in Hj.
  eexists. symmetry. exact Hj.
Qed.

Lemma upperChar_replaced (c : ascii) :
  upperUnderscored
    (strings.upperChar (if Ascii.eqb c "-" then "_"%char else c)) = true.
Proof. destruct c as [[] [] [] [] [] [] [] []]; vm_compute; reflexivity. Qed.

(** X11.  Without an explicit metavar and without choices, the metavar of
    an argument is derived from its token: it has no lower-case letter
    and no hyphen (hyphens are written as underscores).  An explicit
    metavar is used as given. *)
Theorem MetaVar_derived_upper (a : Argument) :
  (metavar (base a) = EmptyString -> choices (base a) = [] ->
   allChars upperUnderscored (MetaVar a) = true) /\
  (metavar (base a) <> EmptyString -> MetaVar a = metavar (base a)).
Proof.
  unfold MetaVar. split.
  - intros -> ->. simpl. generalize (Token a). intros t.
    induction t as [|c t IH]; [reflexivity|].
    simpl. now rewrite upperChar_replaced, IH.
  - intros H. destruct (metavar (base a)); [contradiction|reflexivity].
Qed.

Lemma MetaVar_derived_upper_witness :
  allChars upperUnderscored (MetaVar ex_NameFull) = true.
Proof.
  exact (proj1 (MetaVar_derived_upper ex_NameFull) eq_refl eq_refl).
Defined.

Lemma TrimLeft_onlyMarkers (tok : string) :
  onlyMarkers tok = true -> strings.TrimLeft tok "-" = EmptyString.
Proof.
  induction tok as [|c tok IH]; [reflexivity|]. simpl.
  intros H. apply andb_prop in H as [Hc Ht]. rewrite Hc. simpl. exact (IH Ht).
Qed.

Lemma HasPrefix_empty (s : string) : strings.HasPrefix s EmptyString = true.
Proof. destruct s; reflexivity. Qed.

(** X29.  A token made of markers only ([-], [--]) carries the empty text,
    which is a prefix of every token.  In a parser with exactly one
    optional argument such a token selects that argument (a lone [--]
    sets the only flag); with two or more optional arguments it matches
    them all and is unknown. *)
Theorem bare_marker_matches_everything (this : ArgumentParser) (tok : string) :
  onlyMarkers tok = true ->
  (forall arg, optArgs this = [arg] ->
     findOptionalArgument this (strings.TrimLeft tok "-") = Some (0%nat, arg)) /\
  (forall a b l, optArgs this = a :: b :: l ->
     findOptionalArgument this (strings.TrimLeft tok "-") = None) /\
  (forall (ext : External) arg arg' (k : nat) (rest : list string) (ig : bool),
     tok <> EmptyString -> optArgs this = [arg] -> NeedData arg = false ->
     DoAction arg = (arg', Nil) ->
     ParseArgs_loop ext this k (tok :: rest) ig
       = ParseArgs_loop ext (with_optArgs this [arg']) k rest ig).
Proof.
  intros Hm. rewrite (TrimLeft_onlyMarkers tok Hm).
  assert (H1 : forall arg, optArgs this = [arg] ->
            findOptionalArgument this EmptyString = Some (0%nat, arg)).
  { intros arg Ho. unfold findOptionalArgument. rewrite Ho. simpl.
    now rewrite HasPrefix_empty. }
  split; [exact H1|]. split.
  - intros a b l Ho. unfold findOptionalArgument. rewrite Ho. simpl.
    now rewrite !HasPrefix_empty.
  - intros ext arg arg' k rest ig Hne Ho Hnd Hact.
    cbn [ParseArgs_loop].
    assert (Hp : strings.HasPrefix tok "-" = true).
    { destruct tok as [|c tok]; [contradiction|]. simpl in Hm |- *.
      apply andb_prop in Hm as [Hc _]. rewrite Hc. now destruct tok. }
    rewrite Hp, (TrimLeft_onlyMarkers tok Hm), (H1 arg Ho), Hnd, Hact, Ho.
    reflexivity.
Qed.

Lemma bare_marker_matches_everything_witness :
  snd (ParseArgs ext_none ex_cli_parser ["alice"; "--"] false) = Nil /\
  findOptionalArgument ex_cli_parser (strings.TrimLeft "--" "-")
    = Some (0%nat, ex_VerboseFlag).
Proof.
  split; [reflexivity|].
  exact (proj1 (bare_marker_matches_everything ex_cli_parser "--" eq_refl)
           ex_VerboseFlag eq_refl).
Defined.
